(** * Big Store: catalog, cache and installation pipeline

    A shallow embedding of the non-GUI core of Big Store
    (big_store/utils/cache.py, big_store/utils/package_manager (1).py,
    big_store/managers/package_manager.py, big_store/data/app_fetcher.py,
    big_store/data/popular_apps.py, big_store/managers/installation_manager.py)
    together with the properties its specification states about it.

    Conventions of the embedding:
    - a Python [str] is a [string] with one character per code point, for
      text whose code points are below 256 (Latin-1, which holds the
      Portuguese texts of the program): [lower] and [strip] act on the
      letters and the white space of that range as [str.lower] and
      [str.strip] do; a text of the source with accented letters is written
      [latin1 "..."], the file itself being in UTF-8;
    - a Python [float] is the rational number it denotes, and adding floats
      rounds the exact sum: the rounding is a parameter [round] of the
      operations that add; an [int] added to a float is one that a float
      can hold;
    - a [dict] with string keys is a [gmap string _] where only lookups
      matter, and an association list where the iteration order matters;
    - [time.time()] is a rational number handed to the operation that reads
      the clock;
    - an external process is given by what it does: the result of
      [subprocess.run], or the events seen while reading [Popen.stdout];
    - a raised exception is a value ([Raised msg]), so that a handler is a
      [match];
    - a thread body is the function it runs; an optional callback is the
      list of values it is called with. *)

From Stdlib Require Import ZArith QArith Qround Lqa Ascii.
From stdpp Require Import base option list gmap strings.

Local Open Scope Z_scope.

(** ** Python strings *)

Module pystr.

(** A literal of this file, which is written in UTF-8, as the string of
    its code points: the two bytes of a code point between 128 and 255
    become one character. *)
Fixpoint latin1 (s : string) : string :=
  match s with
  | EmptyString => EmptyString
  | String c s' =>
      match s' with
      | String d s'' =>
          if (nat_of_ascii c =? 194)%nat then String d (latin1 s'')
          else if (nat_of_ascii c =? 195)%nat then
            String (ascii_of_nat (nat_of_ascii d + 64)) (latin1 s'')
          else String c (latin1 s')
      | EmptyString => String c EmptyString
      end
  end.

(** The characters below 256 that [str.lower] changes: A to Z, and the
    accented capitals from 192 to 222 without the multiplication sign 215;
    the small letter is 32 further. *)
Definition is_upper (c : ascii) : bool :=
  let n := nat_of_ascii c in
  ((65 <=? n)%nat && (n <=? 90)%nat)
  || ((192 <=? n)%nat && (n <=? 214)%nat)
  || ((216 <=? n)%nat && (n <=? 222)%nat).

Definition lower_char (c : ascii) : ascii :=
  if is_upper c then ascii_of_nat (nat_of_ascii c + 32) else c.

(** [s.lower()] *)
Fixpoint lower (s : string) : string :=
  match s with
  | EmptyString => EmptyString
  | String c s' => String (lower_char c) (lower s')
  end.

(** The letters that come in two cases, the capitals and, in the same
    order, the small letters. *)
Definition capitals : string :=
  latin1 "ABCDEFGHIJKLMNOPQRSTUVWXYZÀÁÂÃÄÅÆÇÈÉÊËÌÍÎÏÐÑÒÓÔÕÖØÙÚÛÜÝÞ".
Definition smalls : string :=
  latin1 "abcdefghijklmnopqrstuvwxyzàáâãäåæçèéêëìíîïðñòóôõöøùúûüýþ".

Definition case_pairs : list (ascii * ascii) :=
  zip (String.list_ascii_of_string capitals) (String.list_ascii_of_string smalls).

(** The same letter, in the same or in the other case. *)
Definition same_letter (c c' : ascii) : Prop :=
  c = c' ∨ (c, c') ∈ case_pairs ∨ (c', c) ∈ case_pairs.

(** Two texts that differ only in letter case. *)
Fixpoint same_up_to_case (s s' : string) : Prop :=
  match s, s' with
  | EmptyString, EmptyString => True
  | String c r, String c' r' => same_letter c c' ∧ same_up_to_case r r'
  | _, _ => False
  end.

(** [sub in s] *)
Fixpoint contains (sub s : string) : bool :=
  String.prefix sub s ||
  match s with
  | EmptyString => false
  | String _ s' => contains sub s'
  end.


(** The characters [str.strip()] removes, below 256: tab to carriage
    return, the four separators, the space, next line and the no-break
    space. *)
Definition is_space (c : ascii) : bool :=
  let n := nat_of_ascii c in
  ((9 <=? n)%nat && (n <=? 13)%nat) || ((28 <=? n)%nat && (n <=? 32)%nat)
  || (n =? 133)%nat || (n =? 160)%nat.

Fixpoint lstrip_chars (p : ascii → bool) (s : string) : string :=
  match s with
  | EmptyString => EmptyString
  | String c s' => if p c then lstrip_chars p s' else s
  end.

Definition strip_chars (p : ascii → bool) (s : string) : string :=
  String.rev (lstrip_chars p (String.rev (lstrip_chars p s))).

(** [s.strip()] *)
Definition strip : string → string := strip_chars is_space.

Fixpoint drop (n : nat) (s : string) : string :=
  match n, s with
  | O, _ => s
  | S n', String _ s' => drop n' s'
  | S _, EmptyString => EmptyString
  end.

Fixpoint take (n : nat) (s : string) : string :=
  match n, s with
  | S n', String c s' => String c (take n' s')
  | _, _ => EmptyString
  end.

(** [s[-n:]] for a positive [n] *)
Definition last_chars (n : nat) (s : string) : string :=
  drop (String.length s - n) s.

(** [''.join(lines)] *)
Definition join (lines : list string) : string :=
  foldr String.append EmptyString lines.

(** [s.split(sep)] for a one-character separator; never the empty list. *)
Fixpoint split (sep : ascii) (s : string) : list string :=
  match s with
  | EmptyString => [EmptyString]
  | String c s' =>
      if decide (c = sep) then EmptyString :: split sep s'
      else match split sep s' with
           | w :: ws => String c w :: ws
           | [] => [String c EmptyString]
           end
  end.

(** [s.split(sep, 1)] when [sep in s]: the parts before and after the
    first separator. *)
Fixpoint partition (sep : ascii) (s : string) : option (string * string) :=
  match s with
  | EmptyString => None
  | String c s' =>
      if decide (c = sep) then Some (EmptyString, s')
      else (λ p : string * string, (String c p.1, p.2)) <$> partition sep s'
  end.

(** [c in s] for a single character. *)
Definition has_char (c : ascii) (s : string) : bool := contains (String c "") s.

End pystr.

(** ** subprocess *)

(** What [subprocess.run(cmd, capture_output=True, ...)] does: it returns a
    completed process, or raises (the binary is missing, the timeout
    expired). *)
Inductive run_result :=
  | Completed (returncode : Z) (stdout stderr : string)
  | Raised (msg : string).

(** A host: what each command line does when run. *)
Definition host := list string → run_result.

(** ** big_store/models.py *)

Module models.

Inductive DistroType :=
  | ARCH | MANJARO | BIGLINUX | ENDEAVOUROS | GARUDA | FEDORA | UBUNTU
  | DEBIAN | OPENSUSE | GENTOO | VOID | ALPINE | UNKNOWN.

Global Instance DistroType_eq_dec : EqDecision DistroType.
Proof. solve_decision. Defined.

Record AppInfo := {
  id : string;
  name : string;
  summary : string;
  description : string;
  icon_name : option string;
  version : option string;
  developer : option string;
  categories : list string;
  source : string;
  installed : bool;
  rating : option Q;
  downloads : option Z;
  featured : bool;
  update_available : bool;
}.

Definition set_installed (b : bool) (app : AppInfo) : AppInfo :=
  {| id := id app; name := name app; summary := summary app;
     description := description app; icon_name := icon_name app;
     version := version app; developer := developer app;
     categories := categories app; source := source app;
     installed := b;
     rating := rating app; downloads := downloads app;
     featured := featured app; update_available := update_available app |}.

Definition set_update_available (b : bool) (app : AppInfo) : AppInfo :=
  {| id := id app; name := name app; summary := summary app;
     description := description app; icon_name := icon_name app;
     version := version app; developer := developer app;
     categories := categories app; source := source app;
     installed := installed app;
     rating := rating app; downloads := downloads app;
     featured := featured app; update_available := b |}.

(** The identity of a catalog record. *)
Definition fingerprint (app : AppInfo) : string * string :=
  (id app, source app).

Record DistroInfo := {
  d_name : string;
  distro_type : DistroType;
  d_version : string;
  codename : string;
  base : string;
  package_manager : string;
  supports_aur : bool;
  supports_flatpak : bool;
  supports_snap : bool;
}.

End models.

(** ** big_store/utils/cache.py *)

Module cache.

(** The payloads the callers store; [PyNone] is also what [get] returns
    for a missing entry. *)
Inductive pyval :=
  | PyNone
  | PyBool (b : bool)
  | PyInt (z : Z)
  | PyStr (s : string)
  | PyApps (apps : list models.AppInfo).

Record CacheEntry := {
  key : string;
  data : pyval;
  created : Q;
  expires : Q;
}.

(** [CacheEntry.is_expired], with [now] the value of [time.time()]. *)
Definition is_expired (now : Q) (e : CacheEntry) : bool :=
  negb (Qle_bool now (expires e)).

Record AppCache := {
  _cache : gmap string CacheEntry;
  _default_ttl : Z;
}.

Definition with_cache (m : gmap string CacheEntry) (c : AppCache) : AppCache :=
  {| _cache := m; _default_ttl := _default_ttl c |}.

(** [ttl or self._default_ttl]: [None] and [0] are both falsy. *)
Definition effective_ttl (c : AppCache) (ttl : option Z) : Z :=
  match ttl with
  | Some t => if decide (t = 0) then _default_ttl c else t
  | None => _default_ttl c
  end.

(** [AppCache.get]: the value returned and the cache afterwards. *)
Definition get (k : string) (now : Q) (c : AppCache) : pyval * AppCache :=
  match _cache c !! k with
  | None => (PyNone, c)
  | Some entry =>
      if is_expired now entry then (PyNone, with_cache (delete k (_cache c)) c)
      else (data entry, c)
  end.

(** [x + n] for a float [x] and an int [n] that a float can hold: [n] is
    converted to a float and the exact sum is rounded, [round] giving the
    double nearest to a real number. *)
Definition float_add (round : Q → Q) (x : Q) (n : Z) : Q :=
  round (x + round (inject_Z n))%Q.

(** What the proofs use of rounding to nearest: it keeps the order. *)
Definition monotone (round : Q → Q) : Prop :=
  ∀ x y, (x <= y)%Q → (round x <= round y)%Q.

(** [x] is a double: rounding leaves it as it is. *)
Definition is_float (round : Q → Q) (x : Q) : Prop := (round x == x)%Q.

(** [AppCache.set]; the clock is read twice, at [t_created] and then at
    [t_expires]. The write to disk happens on another thread and does not
    touch [_cache]. *)
Definition set (round : Q → Q) (k : string) (v : pyval) (ttl : option Z)
    (t_created t_expires : Q) (c : AppCache) : AppCache :=
  with_cache
    (<[k := {| key := k; data := v; created := t_created;
               expires := float_add round t_expires (effective_ttl c ttl) |}]>
       (_cache c)) c.

Definition delete_key (k : string) (c : AppCache) : AppCache :=
  with_cache (delete k (_cache c)) c.

(** [AppCache.cleanup_expired] *)
Definition cleanup_expired (now : Q) (c : AppCache) : AppCache :=
  with_cache (filter (λ kv, is_expired now kv.2 = false) (_cache c)) c.

(** [AppCache.clear] *)
Definition clear (c : AppCache) : AppCache := with_cache ∅ c.

(** [AppCache.get_or_set]; [factory] is the value [factory()] returns. The
    clock is read once by [get] and twice by [set]. The result is the value
    returned, whether the factory was called, and the cache afterwards. *)
Definition get_or_set (round : Q → Q) (k : string) (factory : pyval)
    (ttl : option Z) (t_get t_created t_expires : Q) (c : AppCache)
  : pyval * bool * AppCache :=
  let '(value, c1) := get k t_get c in
  match value with
  | PyNone => (factory, true, set round k factory ttl t_created t_expires c1)
  | _ => (value, false, c1)
  end.

(** [AppCache.get_stats]: [total_entries], [valid_entries] and
    [expired_entries]. *)
Definition get_stats (now : Q) (c : AppCache) : Z * Z * Z :=
  let total := Z.of_nat (size (_cache c)) in
  let expired :=
    Z.of_nat (length (filter (λ e, is_expired now e = true)
                             (map_to_list (_cache c)).*2)) in
  (total, total - expired, expired).

(** One value of the JSON object in app_cache.json, read with [entry.get]. *)
Record file_entry := {
  f_data : option pyval;
  f_created : option Q;
  f_expires : option Q;
}.

(** The cache file: absent, present but not a JSON object of such entries
    ([json.load] or the loop raises), or a JSON object. *)
Inductive cache_file :=
  | NoFile
  | Unreadable
  | Json (entries : gmap string file_entry).

(** The body of the loop of [_load_persistent_cache]. *)
Definition load_entry (round : Q → Q) (now : Q) (default_ttl : Z) (k : string)
    (entry : file_entry) (m : gmap string CacheEntry) : gmap string CacheEntry :=
  if negb (Qle_bool (default 0%Q (f_expires entry)) now) then
    <[k := {| key := k;
              data := default PyNone (f_data entry);
              created := default now (f_created entry);
              expires := default (float_add round now default_ttl)
                                 (f_expires entry) |}]> m
  else m.

(** [AppCache._load_persistent_cache], with [now] the one reading of the
    clock. *)
Definition _load_persistent_cache (round : Q → Q) (file : cache_file) (now : Q)
    (c : AppCache) : AppCache :=
  match file with
  | NoFile => c
  | Unreadable => with_cache ∅ c
  | Json entries =>
      with_cache (map_fold (load_entry round now (_default_ttl c)) (_cache c) entries)
        c
  end.

(** [AppCache.__init__], after the directory is made. *)
Definition new_cache (round : Q → Q) (file : cache_file) (default_ttl : Z)
    (now : Q) : AppCache :=
  _load_persistent_cache round file now
    {| _cache := ∅; _default_ttl := default_ttl |}.

(** What [json.dump] accepts among the payloads: a list of [AppInfo]
    objects passes the [isinstance] test of [_save_persistent_cache] and
    makes [json.dump] raise, unless it is empty. *)
Definition json_value (v : pyval) : bool :=
  match v with
  | PyApps (_ :: _) => false
  | _ => true
  end.

(** [AppCache._save_persistent_cache]: the file it leaves. When [json.dump]
    raises, the file has been opened for writing and holds no JSON
    document. *)
Definition _save_persistent_cache (c : AppCache) : cache_file :=
  if bool_decide (map_Forall (λ _ e, json_value (data e) = true) (_cache c)) then
    Json ((λ e, {| f_data := Some (data e);
                   f_created := Some (created e);
                   f_expires := Some (expires e) |}) <$> _cache c)
  else Unreadable.

(** Every entry is stored under its own key. *)
Definition keyed (c : AppCache) : Prop :=
  ∀ k e, _cache c !! k = Some e → key e = k.

End cache.

(** ** big_store/managers/installation_manager.py *)

Module installation_manager.
Import pystr.

Inductive InstallStatus :=
  | PREPARING | DOWNLOADING | INSTALLING | COMPLETED | FAILED | CANCELLED.

Global Instance InstallStatus_eq_dec : EqDecision InstallStatus.
Proof. solve_decision. Defined.

Record InstallProgress := {
  status : InstallStatus;
  message : string;
  percentage : Z;
  details : string;
}.

(** [InstallProgress(status=.., message=.., percentage=.., details=..)],
    the last two defaulting to [0] and the empty string. *)
Definition report (st : InstallStatus) (msg : string) (pct : Z) (det : string)
  : InstallProgress :=
  {| status := st; message := msg; percentage := pct; details := det |}.

(** What happens, in order, while a task iterates over [process.stdout]:
    the process writes a line, or another thread calls [cancel()] or
    [install_package()] on the one manager object. *)
Inductive event :=
  | Line (l : string)
  | CancelCall
  | InstallCall.

(** How the iteration ends: the stream closes and [process.wait()] gives
    the return code, or reading raises. *)
Inductive proc_end :=
  | Exit (returncode : Z)
  | ReadRaises (msg : string).

(** [subprocess.Popen(cmd, ...)] *)
Inductive spawn :=
  | Spawned (tr : list event) (fin : proc_end)
  | SpawnRaises (msg : string).

Record world := {
  run : host;
  popen : list string → spawn;
}.

Inductive backend := Flatpak | Snap | Aur | Native.

(** The branch of the loop body that reports a stage. The local
    [percentage] of [_install_flatpak] is assigned once, to [0]. *)
Definition classify (b : backend) (line : string) : option InstallProgress :=
  let line_lower := lower line in
  match b with
  | Flatpak =>
      let percentage := 0 in
      if contains "Downloading" line || contains "fetching" line_lower then
        Some (report DOWNLOADING "Baixando pacote..."
                (Z.min (percentage + 5) 50) (strip line))
      else if contains "Installing" line || contains "installing" line_lower then
        Some (report INSTALLING "Instalando..."
                (Z.min (percentage + 10) 90) (strip line))
      else None
  | Snap =>
      if contains "download" line_lower then
        Some (report DOWNLOADING "Baixando snap..." 30 (strip line))
      else if contains "install" line_lower then
        Some (report INSTALLING "Instalando snap..." 70 (strip line))
      else None
  | Aur =>
      if contains "cloning" line_lower || contains "fetching" line_lower then
        Some (report DOWNLOADING "Baixando do AUR..." 20 (take 100 (strip line)))
      else if contains "building" line_lower || contains "making" line_lower then
        Some (report INSTALLING "Compilando pacote..." 50 (take 100 (strip line)))
      else if contains "installing" line_lower || contains "upgrading" line_lower then
        Some (report INSTALLING "Instalando pacote..." 80 (take 100 (strip line)))
      else None
  | Native =>
      if contains "downloading" line_lower || contains "fetching" line_lower then
        Some (report DOWNLOADING "Baixando pacotes..." 40 (take 100 (strip line)))
      else if contains "installing" line_lower || contains "unpacking" line_lower then
        Some (report INSTALLING "Instalando pacotes..." 70 (take 100 (strip line)))
      else if contains "setting up" line_lower || contains "configuring" line_lower then
        Some (report INSTALLING "Configurando pacotes..." 90 (take 100 (strip line)))
      else None
  end.

(** What a task has done so far. *)
Record task := {
  output_lines : list string;
  reports : list InstallProgress;
  terminated : bool;      (* [process.terminate()] was called *)
}.

Definition add_report (p : InstallProgress) (t : task) : task :=
  {| output_lines := output_lines t; reports := reports t ++ [p];
     terminated := terminated t |}.

Definition add_line (l : string) (t : task) : task :=
  {| output_lines := output_lines t ++ [l]; reports := reports t;
     terminated := terminated t |}.

Definition terminate (t : task) : task :=
  {| output_lines := output_lines t; reports := reports t; terminated := true |}.

Definition new_task : task :=
  {| output_lines := []; reports := []; terminated := false |}.

(** One iteration of [for line in process.stdout], reading the shared flag:
    either the task returns, or it goes on to the next line. *)
Definition loop_body (b : backend) (cancel_requested : bool) (line : string)
    (t : task) : (bool * string) * task + task :=
  if cancel_requested then
    inl ((false, "Installation cancelled"), terminate t)
  else
    let t := add_line line t in
    inr (match classify b line with
         | Some p => add_report p t
         | None => t
         end).

(** The statements after the loop, and the [except Exception] handler that
    encloses [Popen], the loop and them. *)
Definition on_exit (returncode : Z) (t : task) : (bool * string) * task :=
  let output := join (output_lines t) in
  if decide (returncode = 0) then
    ((true, (latin1 "Instalação concluída com sucesso")),
     add_report (report COMPLETED (latin1 "Instalação concluída!") 100 "") t)
  else
    ((false, last_chars 1000 output),
     add_report (report FAILED (latin1 "Falha na instalação") 0 (last_chars 500 output)) t).

Definition on_exception (msg : string) (t : task) : (bool * string) * task :=
  ((false, msg), add_report (report FAILED ("Erro: " +:+ msg) 0 "") t).

Definition finish (fin : proc_end) (t : task) : (bool * string) * task :=
  match fin with
  | Exit returncode => on_exit returncode t
  | ReadRaises msg => on_exception msg t
  end.

(** The loop over the events of a run. [_cancel_requested] is the manager's
    flag; it is returned as the other threads left it. *)
Fixpoint read_loop (b : backend) (_cancel_requested : bool) (tr : list event)
    (fin : proc_end) (t : task) : (bool * string) * task * bool :=
  match tr with
  | [] => (finish fin t, _cancel_requested)
  | CancelCall :: tr' => read_loop b true tr' fin t
  | InstallCall :: tr' => read_loop b false tr' fin t
  | Line l :: tr' =>
      match loop_body b _cancel_requested l t with
      | inl r => (r, _cancel_requested)
      | inr t' => read_loop b _cancel_requested tr' fin t'
      end
  end.

(** [try: process = Popen(cmd, ...) ... except Exception as e: ...] *)
Definition run_process (b : backend) (w : world) (cmd : list string)
    (_cancel_requested : bool) (t : task) : (bool * string) * task * bool :=
  match popen w cmd with
  | SpawnRaises msg => (on_exception msg t, _cancel_requested)
  | Spawned tr fin => read_loop b _cancel_requested tr fin t
  end.

Definition preparing (what : string) : InstallProgress :=
  report PREPARING ((latin1 "Preparando instalação de ") +:+ what +:+ "...") 0 "".

Definition _install_flatpak (w : world) (app_id : string) (flag : bool) :=
  run_process Flatpak w ["flatpak"; "install"; "--user"; "-y"; "flathub"; app_id]
    flag (add_report (preparing app_id) new_task).

Definition _install_snap (w : world) (snap_name : string) (flag : bool) :=
  run_process Snap w ["pkexec"; "snap"; "install"; snap_name]
    flag (add_report (preparing snap_name) new_task).

(** [for h in candidates: try: subprocess.run(['which', h], ...);
    helper = h; break; except Exception: continue] *)
Fixpoint first_not_raising (run : host) (candidates : list string)
  : option string :=
  match candidates with
  | [] => None
  | h :: rest =>
      match run ["which"; h] with
      | Completed _ _ _ => Some h
      | Raised _ => first_not_raising run rest
      end
  end.

Definition aur_helpers : list string := ["paru"; "yay"; "pamac"].
Definition native_managers : list string := ["pamac"; "pacman"; "apt"; "dnf"].

(** The command line [_install_aur] builds for the helper it found. *)
Definition aur_install_cmd (helper pkg_name : string) : list string :=
  if decide (helper = "pamac") then ["pamac"; "build"; "--no-confirm"; pkg_name]
  else if decide (helper = "paru") then
    ["paru"; "-S"; "--noconfirm"; "--needed"; pkg_name]
  else ["yay"; "-S"; "--noconfirm"; "--needed"; pkg_name].

Definition _install_aur (w : world) (pkg_name : string) (flag : bool)
  : (bool * string) * task * bool :=
  let t := add_report (preparing pkg_name) new_task in
  match first_not_raising (run w) aur_helpers with
  | None =>
      ((false, "No AUR helper found"),
       add_report
         (report FAILED "Nenhum AUR helper encontrado (paru, yay, pamac)" 0 "") t,
       flag)
  | Some helper =>
      run_process Aur w (aur_install_cmd helper pkg_name) flag
        (add_report (report DOWNLOADING "Buscando pacote AUR..." 10 "") t)
  end.

Definition native_install_cmd (pm pkg_name : string) : option (list string) :=
  if decide (pm = "pamac") then Some ["pamac"; "install"; "--no-confirm"; pkg_name]
  else if decide (pm = "pacman") then
    Some ["pkexec"; "pacman"; "-S"; "--noconfirm"; "--needed"; pkg_name]
  else if decide (pm = "apt") then Some ["pkexec"; "apt"; "install"; "-y"; pkg_name]
  else if decide (pm = "dnf") then Some ["pkexec"; "dnf"; "install"; "-y"; pkg_name]
  else None.

Definition _install_native (w : world) (pkg_name : string) (flag : bool)
  : (bool * string) * task * bool :=
  let t := add_report (preparing pkg_name) new_task in
  match first_not_raising (run w) native_managers with
  | None =>
      ((false, "No package manager found"),
       add_report (report FAILED "Nenhum gerenciador de pacotes encontrado" 0 "") t,
       flag)
  | Some pm =>
      match native_install_cmd pm pkg_name with
      | None => ((false, "Unknown package manager: " +:+ pm), t, flag)
      | Some cmd =>
          run_process Native w cmd flag
            (add_report (report DOWNLOADING (latin1 "Resolvendo dependências...") 20 "") t)
      end
  end.

(** The manager object: its only field. *)
Record InstallationManager := {
  _cancel_requested : bool;
}.

(** [InstallationManager.__init__] and the module's global instance. *)
Definition init : InstallationManager := {| _cancel_requested := false |}.

(** [InstallationManager.cancel] *)
Definition cancel (m : InstallationManager) : InstallationManager :=
  {| _cancel_requested := true |}.

(** The body of the thread [install_package] starts. *)
Definition _install (w : world) (pkg_id source : string) (flag : bool)
  : (bool * string) * task * bool :=
  if decide (source = "flatpak") then _install_flatpak w pkg_id flag
  else if decide (source = "snap") then _install_snap w pkg_id flag
  else if decide (source = "aur") then _install_aur w pkg_id flag
  else if decide (source = "native") then _install_native w pkg_id flag
  else ((false, "Unknown source: " +:+ source), new_task, flag).

(** What one call of [install_package] gives once its thread has ended. *)
Record completion := {
  complete : bool * string;          (* the arguments of [complete_callback] *)
  progress : list InstallProgress;   (* the arguments of [progress_callback] *)
  killed : bool;                     (* [process.terminate()] was called *)
  manager : InstallationManager;     (* the manager afterwards *)
}.

(** [InstallationManager.install_package] up to [thread.start()]: the
    assignment [self._cancel_requested = False]. *)
Definition begin_install (m : InstallationManager) : InstallationManager :=
  {| _cancel_requested := false |}.

(** [InstallationManager.install_package]: the flag is cleared, then the
    thread runs; it reads the flag of the manager, and the manager is left
    with the flag as the run leaves it. *)
Definition install_package (w : world) (pkg_id source : string)
    (m : InstallationManager) : completion :=
  let m0 := begin_install m in
  let '(r, t, flag) := _install w pkg_id source (_cancel_requested m0) in
  {| complete := r; progress := reports t; killed := terminated t;
     manager := {| _cancel_requested := flag |} |}.

(** The command line an installation starts, when it gets to start one:
    the source must be known and, for the AUR and native sources, a tool
    must have been found. *)
Definition install_cmd (w : world) (pkg_id source : string)
  : option (list string) :=
  if decide (source = "flatpak") then
    Some ["flatpak"; "install"; "--user"; "-y"; "flathub"; pkg_id]
  else if decide (source = "snap") then Some ["pkexec"; "snap"; "install"; pkg_id]
  else if decide (source = "aur") then
    (λ helper, aur_install_cmd helper pkg_id)
      <$> first_not_raising (run w) aur_helpers
  else if decide (source = "native") then
    first_not_raising (run w) native_managers
      ≫= λ pm, native_install_cmd pm pkg_id
  else None.

(** The last status handed to the progress callback. *)
Definition final_status (c : completion) : option InstallStatus :=
  status <$> last (progress c).

Definition statuses (t : task) : list InstallStatus := status <$> reports t.

(** No terminal success and no [CANCELLED] among the reports so far. *)
Definition quiet (t : task) : Prop :=
  (COMPLETED ∉ statuses t) ∧ (CANCELLED ∉ statuses t).

(** A task either succeeds, after a process that exited with code zero and
    with [COMPLETED] as its last report, or fails without that report. *)
Definition exit_zero_or_failed (w : world) (r : (bool * string) * task * bool)
  : Prop :=
  (r.1.1.1 = true ∧ (∃ cmd tr, popen w cmd = Spawned tr (Exit 0))
   ∧ last (statuses r.1.2) = Some COMPLETED)
  ∨ (r.1.1.1 = false ∧ last (statuses r.1.2) ≠ Some COMPLETED).



(** The lines a process has written, as [process.communicate()] collects
    them, and the flag as the calls of the other threads leave it. *)
Definition lines_of (tr : list event) : list string :=
  omap (λ e, match e with Line l => Some l | _ => None end) tr.

Definition flag_after (tr : list event) (flag : bool) : bool :=
  foldl (λ f e, match e with
                | Line _ => f
                | CancelCall => true
                | InstallCall => false
                end) flag tr.

Definition uninstall_cmd (w : world) (pkg_id source : string)
  : list string + string :=
  if decide (source = "flatpak") then inl ["flatpak"; "uninstall"; "-y"; pkg_id]
  else if decide (source = "snap") then inl ["pkexec"; "snap"; "remove"; pkg_id]
  else if decide (source = "aur" ∨ source = "native") then
    match first_not_raising (run w) native_managers with
    | Some pm =>
        if decide (pm = "pamac") then inl ["pamac"; "remove"; "--no-confirm"; pkg_id]
        else if decide (pm = "pacman") then
          inl ["pkexec"; "pacman"; "-Rns"; "--noconfirm"; pkg_id]
        else if decide (pm = "apt") then inl ["pkexec"; "apt"; "remove"; "-y"; pkg_id]
        else if decide (pm = "dnf") then inl ["pkexec"; "dnf"; "remove"; "-y"; pkg_id]
        else inr "No package manager found"
    | None => inr "No package manager found"
    end
  else inr ("Unknown source: " +:+ source).

(** [InstallationManager.uninstall_package]: it neither clears nor reads
    the flag. *)
Definition uninstall_package (w : world) (pkg_id source : string)
    (m : InstallationManager) : completion :=
  match uninstall_cmd w pkg_id source with
  | inr msg =>
      {| complete := (false, msg); progress := []; killed := false; manager := m |}
  | inl cmd =>
      let prep := report PREPARING ("Removendo " +:+ pkg_id +:+ "...") 0 "" in
      match popen w cmd with
      | SpawnRaises msg =>
          {| complete := (false, msg); progress := [prep]; killed := false;
             manager := m |}
      | Spawned tr fin =>
          let m' := {| _cancel_requested := flag_after tr (_cancel_requested m) |} in
          match fin with
          | ReadRaises msg =>
              {| complete := (false, msg); progress := [prep]; killed := false;
                 manager := m' |}
          | Exit returncode =>
              let output := join (lines_of tr) in
              if decide (returncode = 0) then
                {| complete := (true, (latin1 "Remoção concluída"));
                   progress := [prep; report COMPLETED (latin1 "Remoção concluída!") 100 ""];
                   killed := false; manager := m' |}
              else
                {| complete := (false, last_chars 1000 output);
                   progress := [prep; report FAILED (latin1 "Falha na remoção") 0
                                        (last_chars 500 output)];
                   killed := false; manager := m' |}
          end
      end
  end.





(** The sources [_install] knows. *)
Definition known_source (source : string) : Prop :=
  source ∈ ["flatpak"; "snap"; "aur"; "native"].

(** What holds of every report after the first: it is no [PREPARING], its
    percentage is between 0 and 100, and for the AUR and native backends
    its details have at most 500 characters. *)
Definition later_report (source : string) (p : InstallProgress) : Prop :=
  status p ≠ PREPARING ∧ 0 ≤ percentage p ≤ 100
  ∧ (source = "aur" ∨ source = "native" → (String.length (details p) ≤ 500)%nat).

(** The run of a process with the calls of the other threads taken out. *)
Definition without_calls (s : spawn) : spawn :=
  match s with
  | Spawned tr fin => Spawned (Line <$> lines_of tr) fin
  | SpawnRaises msg => SpawnRaises msg
  end.

End installation_manager.

(** ** big_store/managers/aur_manager.py, native_manager.py *)

Module backend_managers.

(** [AURManager._detect_helper] and [NativeManager._detect_package_manager]:
    the first candidate whose [which] returns with code zero. *)
Fixpoint first_resolving (run : host) (candidates : list string)
  : option string :=
  match candidates with
  | [] => None
  | h :: rest =>
      match run ["which"; h] with
      | Completed returncode _ _ =>
          if decide (returncode = 0) then Some h else first_resolving run rest
      | Raised _ => first_resolving run rest
      end
  end.

Definition HELPERS : list string := ["paru"; "yay"; "pamac"; "pacman"].

Definition _detect_helper (run : host) : option string :=
  first_resolving run HELPERS.

(** [NativeManager.get_apps], from what [get_installed] and [get_available]
    return: an available record is kept when no installed record has its id. *)
Definition native_get_apps (installed available : list models.AppInfo)
  : list models.AppInfo :=
  let installed_ids : gset string := list_to_set (models.id <$> installed) in
  installed ++ filter (λ app, models.id app ∉ installed_ids) available.

End backend_managers.

(** ** big_store/data/popular_apps.py *)

Module popular_apps.
Import pystr.

(** One value of the [POPULAR_APPS] table; every entry of the table has a
    name and a summary, the other keys may be missing. *)
Record metadata := {
  m_name : string;
  m_summary : string;
  m_developer : option string;
  m_categories : option (list string);
  m_downloads : option Z;
  m_rating : option Q;
}.

Section tables.
(** The two tables of the module, in the order they are written. *)
Variable POPULAR_APPS : list (string * metadata).
Variable PACKAGE_IDS : gmap string (gmap string (option string)).

Definition get_popular_app_keys : list string := POPULAR_APPS.*1.

Definition get_app_metadata (key : string) : option metadata :=
  (λ r : nat * (string * metadata), r.2.2)
    <$> list_find (λ kv, kv.1 = key) POPULAR_APPS.

Definition get_package_id (key source : string) : option string :=
  match PACKAGE_IDS !! key with
  | Some ids => mjoin (ids !! source)
  | None => None
  end.

Definition search_popular_apps (query : string) : list (string * metadata) :=
  let query_lower := lower query in
  filter (λ kv,
            let name := lower (m_name kv.2) in
            let summary := lower (m_summary kv.2) in
            contains query_lower kv.1 || contains query_lower name
            || contains query_lower summary = true)
         POPULAR_APPS.
End tables.

End popular_apps.

(** ** big_store/data/app_fetcher.py *)

Module app_fetcher.
Import models popular_apps.

(** [try: result = subprocess.run(cmd, ...); sources[s] = result.returncode == 0
    except Exception: pass] *)
Definition probe (run : host) (cmd : list string) : bool :=
  match run cmd with
  | Completed returncode _ _ => bool_decide (returncode = 0)
  | Raised _ => false
  end.

(** [for c in candidates: try: result = subprocess.run(['which', c], ...);
    if result.returncode == 0: sources[s] = True; break
    except Exception: pass] *)
Fixpoint probe_first (run : host) (candidates : list string) : bool :=
  match candidates with
  | [] => false
  | c :: rest =>
      match run ["which"; c] with
      | Completed returncode _ _ =>
          if decide (returncode = 0) then true else probe_first run rest
      | Raised _ => probe_first run rest
      end
  end.

(** [UnifiedAppFetcher._detect_sources]: the dictionary, in insertion order. *)
Definition _detect_sources (run : host) : list (string * bool) :=
  [ ("flatpak", probe run ["flatpak"; "--version"]);
    ("snap", probe run ["snap"; "--version"]);
    ("aur", probe_first run ["paru"; "yay"; "pamac"]);
    ("native", probe_first run ["pamac"; "pacman"; "apt"; "dnf"]);
    ("distrobox", probe run ["distrobox"; "version"]) ].

Record UnifiedAppFetcher := {
  _available_sources : list (string * bool);
  _apps_cache : list AppInfo;
  _installed_cache : gmap string (list string);
}.

Definition get_available_sources (f : UnifiedAppFetcher) : list string :=
  (filter (λ sa : string * bool, sa.2 = true) (_available_sources f)).*1.

Definition _is_installed (f : UnifiedAppFetcher) (pkg_id source : string) : bool :=
  match _installed_cache f !! source with
  | Some ids => bool_decide (pkg_id ∈ ids)
  | None => false
  end.

Definition cache_key (pkg_id source : string) : string :=
  pkg_id +:+ ":" +:+ source.

Definition key_of (app : AppInfo) : string := cache_key (id app) (source app).

(** What the two loops of [get_all_apps] keep true of [apps] and [seen_ids]:
    no key twice, and every key recorded. *)
Definition seen_inv (st : list AppInfo * gset string) : Prop :=
  NoDup (key_of <$> st.1) ∧ ∀ app, app ∈ st.1 → key_of app ∈ st.2.

Section get_all_apps.
Variable POPULAR_APPS : list (string * metadata).
Variable PACKAGE_IDS : gmap string (gmap string (option string)).
(** [icon_manager.get_icon_name] *)
Variable get_icon_name : string → string → string → option string.

(** The record built for [pkg_id] from [source]. *)
Definition make_app (f : UnifiedAppFetcher) (md : metadata)
    (pkg_id source : string) : AppInfo :=
  let name := m_name md in
  {| id := pkg_id;
     name := name;
     summary := m_summary md;
     description := "";
     icon_name := get_icon_name pkg_id name source;
     version := None;
     developer := Some (default "" (m_developer md));
     categories := default [] (m_categories md);
     source := source;
     installed := _is_installed f pkg_id source;
     rating := Some (default 0%Q (m_rating md));
     downloads := Some (default 0 (m_downloads md));
     featured := false;
     update_available := false |}.

(** The body of [for source in self.get_available_sources()], on the
    pair of [apps] and [seen_ids]. *)
Definition add_source (f : UnifiedAppFetcher) (app_key : string) (md : metadata)
    (st : list AppInfo * gset string) (source : string)
  : list AppInfo * gset string :=
  match get_package_id PACKAGE_IDS app_key source with
  | None => st
  | Some pkg_id =>
      let key := cache_key pkg_id source in
      if decide (key ∈ st.2) then st
      else (st.1 ++ [make_app f md pkg_id source], {[key]} ∪ st.2)
  end.

(** The body of [for app_key in get_popular_app_keys()]. *)
Definition add_key (f : UnifiedAppFetcher) (st : list AppInfo * gset string)
    (app_key : string) : list AppInfo * gset string :=
  match get_app_metadata POPULAR_APPS app_key with
  | None => st
  | Some md => foldl (add_source f app_key md) st (get_available_sources f)
  end.

(** [UnifiedAppFetcher.get_all_apps], after [_load_installed_cache] has
    filled [_installed_cache]: the list returned and the fetcher
    afterwards. *)
Definition get_all_apps (f : UnifiedAppFetcher) : list AppInfo * UnifiedAppFetcher :=
  let apps := (foldl (add_key f) ([], ∅) (get_popular_app_keys POPULAR_APPS)).1 in
  (apps, {| _available_sources := _available_sources f;
            _apps_cache := apps;
            _installed_cache := _installed_cache f |}).
End get_all_apps.

(** [UnifiedAppFetcher.get_apps_by_source] *)
Definition get_apps_by_source (f : UnifiedAppFetcher) (src : string) : list AppInfo :=
  filter (λ app, source app = src) (_apps_cache f).

(** [UnifiedAppFetcher.get_installed_apps] *)
Definition get_installed_apps (f : UnifiedAppFetcher) : list AppInfo :=
  filter (λ app, installed app = true) (_apps_cache f).

Section provenance.
Variable POPULAR_APPS : list (string * metadata).
Variable PACKAGE_IDS : gmap string (gmap string (option string)).
Variable get_icon_name : string → string → string → option string.
Variable f : UnifiedAppFetcher.

(** Where a record of the list comes from: a key of the table, an
    available source, and the package id the table gives for them. *)
Definition offered (app : AppInfo) : Prop :=
  ∃ app_key md,
    app_key ∈ get_popular_app_keys POPULAR_APPS
    ∧ get_app_metadata POPULAR_APPS app_key = Some md
    ∧ source app ∈ get_available_sources f
    ∧ get_package_id PACKAGE_IDS app_key (source app) = Some (id app)
    ∧ app = make_app get_icon_name f md (id app) (source app).
End provenance.

(** Every key of [seen_ids] belongs to a record of [apps]. *)
Definition seen_listed (st : list AppInfo * gset string) : Prop :=
  ∀ k, k ∈ st.2 → ∃ app, app ∈ st.1 ∧ key_of app = k.

End app_fetcher.

(** ** big_store/managers/package_manager.py *)

Module package_manager.
Import models.

(** [return result.returncode == 0, result.stdout + result.stderr] *)
Definition outcome_of (returncode : Z) (stdout stderr : string) : bool * string :=
  (bool_decide (returncode = 0), stdout +:+ stderr).

(** [try: ... result = subprocess.run(cmd, ...); return ...
    except Exception as e: return False, str(e)] *)
Definition run_once (run : host) (cmd : list string) : bool * string :=
  match run cmd with
  | Completed returncode stdout stderr => outcome_of returncode stdout stderr
  | Raised msg => (false, msg)
  end.

(** [for tool in tools: try: subprocess.run(['which', tool], ...);
    result = subprocess.run(cmd(tool), ...); return ...
    except Exception: continue], then [return False, none_msg]. *)
Fixpoint run_first (run : host) (cmd : string → list string) (none_msg : string)
    (tools : list string) : bool * string :=
  match tools with
  | [] => (false, none_msg)
  | tool :: rest =>
      match run ["which"; tool] with
      | Raised _ => run_first run cmd none_msg rest
      | Completed _ _ _ =>
          match run (cmd tool) with
          | Raised _ => run_first run cmd none_msg rest
          | Completed returncode stdout stderr =>
              outcome_of returncode stdout stderr
          end
      end
  end.

Definition aur_install_cmd (pkg_id helper : string) : list string :=
  if decide (helper = "pamac") then ["pamac"; "build"; "--no-confirm"; pkg_id]
  else [helper; "-S"; "--noconfirm"; pkg_id].

(** For a [pm] outside the four names the source leaves [result] unbound;
    the list it iterates over has no such name. *)
Definition native_install_cmd (pkg_id pm : string) : list string :=
  if decide (pm = "pamac") then ["pamac"; "install"; "--no-confirm"; pkg_id]
  else if decide (pm = "pacman") then ["sudo"; "pacman"; "-S"; "--noconfirm"; pkg_id]
  else if decide (pm = "apt") then ["sudo"; "apt"; "install"; "-y"; pkg_id]
  else ["sudo"; "dnf"; "install"; "-y"; pkg_id].

Definition native_remove_cmd (pkg_id pm : string) : list string :=
  if decide (pm = "pamac") then ["pamac"; "remove"; "--no-confirm"; pkg_id]
  else if decide (pm = "pacman") then ["sudo"; "pacman"; "-Rns"; "--noconfirm"; pkg_id]
  else if decide (pm = "apt") then ["sudo"; "apt"; "remove"; "-y"; pkg_id]
  else ["sudo"; "dnf"; "remove"; "-y"; pkg_id].

(** [PackageManager._install_package] *)
Definition _install_package (run : host) (pkg_id source : string) : bool * string :=
  if decide (source = "flatpak") then
    run_once run ["flatpak"; "install"; "-y"; "flathub"; pkg_id]
  else if decide (source = "snap") then
    run_once run ["sudo"; "snap"; "install"; pkg_id]
  else if decide (source = "aur") then
    run_first run (aur_install_cmd pkg_id) "No AUR helper available"
      ["paru"; "yay"; "pamac"]
  else if decide (source = "native") then
    run_first run (native_install_cmd pkg_id) "No package manager available"
      ["pamac"; "pacman"; "apt"; "dnf"]
  else (false, "Unknown source: " +:+ source).

(** [PackageManager._uninstall_package] *)
Definition _uninstall_package (run : host) (pkg_id source : string) : bool * string :=
  if decide (source = "flatpak") then
    run_once run ["flatpak"; "uninstall"; "-y"; pkg_id]
  else if decide (source = "snap") then
    run_once run ["sudo"; "snap"; "remove"; pkg_id]
  else if decide (source = "aur" ∨ source = "native") then
    run_first run (native_remove_cmd pkg_id) "No package manager available"
      ["pamac"; "pacman"; "apt"; "dnf"]
  else (false, "Unknown source: " +:+ source).

(** [PackageManager.install_app]: the record as the thread leaves it, and
    the arguments of the callback. *)
Definition install_app (run : host) (app : AppInfo) : AppInfo * (bool * string) :=
  let '(success, message) := _install_package run (id app) (source app) in
  (if success then set_installed true app else app, (success, message)).

(** [PackageManager.uninstall_app] *)
Definition uninstall_app (run : host) (app : AppInfo) : AppInfo * (bool * string) :=
  let '(success, message) := _uninstall_package run (id app) (source app) in
  (if success then set_installed false app else app, (success, message)).

End package_manager.

(** ** big_store/utils/package_manager (1).py *)

Module catalog.
Import models pystr.

(** What a call into a backend manager does. *)
Inductive call (A : Type) :=
  | Returns (a : A)
  | Raises (msg : string).
Global Arguments Returns {A} a.
Global Arguments Raises {A} msg.

(** A backend manager, as far as [PackageManager] uses it. *)
Record manager := {
  get_apps : call (list AppInfo);
  install : string → call (bool * string);
  uninstall : string → call (bool * string);
  update : string → call (bool * string);
}.

(** [PackageManager._command_exists] *)
Definition _command_exists (run : host) (command : string) : bool :=
  match run ["which"; command] with
  | Completed _ _ _ => true
  | Raised _ => false
  end.

Definition newline : ascii := ascii_of_nat 10.
Definition is_quote (c : ascii) : bool :=
  bool_decide (c = ascii_of_nat 34) || bool_decide (c = ascii_of_nat 39).

(** The loop of [_parse_os_release] that fills [data]. *)
Definition parse_line (data : gmap string string) (line : string)
  : gmap string string :=
  match partition "=" line with
  | Some (key, value) => <[key := strip_chars is_quote value]> data
  | None => data
  end.

(** The chain of [if ... in name] tests: the type, base, package manager
    and [supports_aur] it assigns. *)
Definition classify_name (name : string)
  : DistroType * string * string * bool :=
  if contains "biglinux" name then (BIGLINUX, "arch", "pacman", true)
  else if contains "manjaro" name then (MANJARO, "arch", "pacman", true)
  else if contains "endeavouros" name then (ENDEAVOUROS, "arch", "pacman", true)
  else if contains "garuda" name then (GARUDA, "arch", "pacman", true)
  else if contains "arch" name then (ARCH, "arch", "pacman", true)
  else if contains "fedora" name then (FEDORA, "rhel", "dnf", false)
  else if contains "ubuntu" name then (UBUNTU, "debian", "apt", false)
  else if contains "debian" name then (DEBIAN, "debian", "apt", false)
  else if contains "opensuse" name || contains "suse" name then
    (OPENSUSE, "suse", "zypper", false)
  else if contains "gentoo" name then (GENTOO, "gentoo", "emerge", false)
  else if contains "void" name then (VOID, "void", "xbps", false)
  else if contains "alpine" name then (ALPINE, "alpine", "apk", false)
  else (UNKNOWN, "", "", false).

(** [PackageManager._parse_os_release] *)
Definition _parse_os_release (content : string) : DistroInfo :=
  let data := foldl parse_line ∅ (split newline content) in
  let name := lower (default "Unknown" (data !! "NAME")) in
  let '(distro_type, base, package_manager, supports_aur) := classify_name name in
  {| d_name := default (default "Unknown" (data !! "NAME")) (data !! "PRETTY_NAME");
     distro_type := distro_type;
     d_version := default "" (data !! "VERSION_ID");
     codename := default "" (data !! "VERSION_CODENAME");
     base := base;
     package_manager := package_manager;
     supports_aur := supports_aur;
     supports_flatpak := true;
     supports_snap := true |}.

(** The table of [_detect_via_package_manager]: command, base, package
    manager, [supports_aur]. *)
Definition package_managers : list (string * string * string * bool) :=
  [ ("pacman", "arch", "pacman", true);
    ("apt", "debian", "apt", false);
    ("dnf", "rhel", "dnf", false);
    ("zypper", "suse", "zypper", false) ].

Definition auto_detected (base pm : string) (supports_aur : bool) : DistroInfo :=
  {| d_name := "Auto-detected"; distro_type := UNKNOWN; d_version := "";
     codename := ""; base := base; package_manager := pm;
     supports_aur := supports_aur;
     supports_flatpak := true; supports_snap := true |}.

(** The loop of [_detect_via_package_manager], over a table and with
    [command_exists] for [self._command_exists]. *)
Fixpoint detect_in (command_exists : string → bool)
    (table : list (string * string * string * bool)) : option DistroInfo :=
  match table with
  | [] => None
  | (cmd, base, pm, supports_aur) :: rest =>
      if command_exists cmd then Some (auto_detected base pm supports_aur)
      else detect_in command_exists rest
  end.

(** [PackageManager._detect_via_package_manager] *)
Definition _detect_via_package_manager (run : host) : option DistroInfo :=
  detect_in (_command_exists run) package_managers.

(** The profile used when nothing was detected. *)
Definition unknown_profile : DistroInfo :=
  {| d_name := "Unknown"; distro_type := UNKNOWN; d_version := "";
     codename := ""; base := ""; package_manager := "auto";
     supports_aur := false; supports_flatpak := true; supports_snap := true |}.

(** [PackageManager._detect_distribution]; [os_release] is the content of
    /etc/os-release when the file exists. *)
Definition _detect_distribution (os_release : option string) (run : host)
  : DistroInfo :=
  let distro_info := _parse_os_release <$> os_release in
  let distro_info :=
    match distro_info with
    | Some d =>
        if decide (distro_type d = UNKNOWN) then _detect_via_package_manager run
        else Some d
    | None => _detect_via_package_manager run
    end in
  default unknown_profile distro_info.

Record PackageManager := {
  _distro_info : option DistroInfo;
  _managers : list (string * manager);    (* the dictionary, in insertion order *)
  _cache : list AppInfo;
  _cache_valid : bool;
}.

Definition set_cache (apps : list AppInfo) (valid : bool) (pm : PackageManager)
  : PackageManager :=
  {| _distro_info := _distro_info pm; _managers := _managers pm;
     _cache := apps; _cache_valid := valid |}.

(** [self._managers.get(source)] *)
Definition lookup_manager (pm : PackageManager) (src : string) : option manager :=
  (λ r : nat * (string * manager), r.2.2)
    <$> list_find (λ sm, sm.1 = src) (_managers pm).

(** [try: apps = ...; self._cache.extend(apps) except Exception: print(...)] *)
Definition extend (cache : list AppInfo) (sm : string * manager) : list AppInfo :=
  match get_apps sm.2 with
  | Returns apps => cache ++ apps
  | Raises _ => cache
  end.

(** What a manager adds to the cache. *)
Definition contribution (sm : string * manager) : list AppInfo :=
  match get_apps sm.2 with
  | Returns apps => apps
  | Raises _ => []
  end.

(** [PackageManager.get_all_apps]: the list returned and the object
    afterwards. *)
Definition get_all_apps (pm : PackageManager) : list AppInfo * PackageManager :=
  if _cache_valid pm then (_cache pm, pm)
  else
    let apps := foldl extend [] (_managers pm) in
    (apps, set_cache apps true pm).

(** The thread of [PackageManager.refresh_cache]. One future is submitted
    per manager, and [as_completed] yields them as they finish:
    [completion] lists the positions of the managers in that order. *)
Definition refresh_cache (completion : list nat) (pm : PackageManager)
  : PackageManager :=
  set_cache (foldl extend [] (omap (λ i, _managers pm !! i) completion)) true pm.

Definition matches (query_lower : string) (app : AppInfo) : bool :=
  contains query_lower (lower (name app))
  || contains query_lower (lower (summary app))
  || contains query_lower (lower (description app)).

(** [PackageManager.search_apps]; [sources] is [None] or a list, and the
    filter applies to a list that is not empty. *)
Definition search_apps (query : string) (sources : option (list string))
    (pm : PackageManager) : list AppInfo :=
  let query_lower := lower query in
  filter (λ app,
            (match sources with
             | Some (s :: l) => bool_decide (source app ∈ s :: l)
             | _ => true
             end) && matches query_lower app = true)
         (get_all_apps pm).1.

(** What an operation on one record leaves behind. *)
Record op_result := {
  app_after : AppInfo;
  callback : bool * string;        (* the arguments of [callback] *)
  pm_after : PackageManager;
}.

(** The common shape of [install_app], [uninstall_app] and [update_app]:
    [method] is the manager's method, [on_success] the assignments made
    when it reports success. *)
Definition operate (method : manager → string → call (bool * string))
    (on_success : AppInfo → PackageManager → AppInfo * PackageManager)
    (app : AppInfo) (pm : PackageManager) : op_result :=
  match lookup_manager pm (source app) with
  | None =>
      {| app_after := app;
         callback := (false, "Source " +:+ source app +:+ " not available");
         pm_after := pm |}
  | Some manager =>
      match method manager (id app) with
      | Returns (success, message) =>
          let '(app', pm') := if success then on_success app pm else (app, pm) in
          {| app_after := app'; callback := (success, message); pm_after := pm' |}
      | Raises msg =>
          {| app_after := app; callback := (false, msg); pm_after := pm |}
      end
  end.

(** [PackageManager.install_app] *)
Definition install_app : AppInfo → PackageManager → op_result :=
  operate install (λ app pm,
    (set_installed true app, set_cache (_cache pm) false pm)).

(** [PackageManager.uninstall_app] *)
Definition uninstall_app : AppInfo → PackageManager → op_result :=
  operate uninstall (λ app pm,
    (set_installed false app, set_cache (_cache pm) false pm)).

(** [PackageManager.update_app] *)
Definition update_app : AppInfo → PackageManager → op_result :=
  operate update (λ app pm, (set_update_available false app, pm)).

(** [PackageManager.get_app]: the first record of the catalog with this id
    and, when a source is given, this source. *)
Definition get_app (app_id : string) (src : option string) (pm : PackageManager)
  : option AppInfo :=
  (λ r : nat * AppInfo, r.2)
    <$> list_find (λ app,
                     bool_decide (id app = app_id)
                     && match src with
                        | None => true
                        | Some s => bool_decide (source app = s)
                        end = true)
                  (get_all_apps pm).1.

(** The manager classes, as [_init_managers] calls them. *)
Record constructors := {
  FlatpakManager : manager;
  SnapManager : manager;
  AURManager : manager;
  NativeManager : option DistroInfo → manager;
  DistroboxManager : manager;
}.

(** [PackageManager._init_managers]: the dictionary it fills, in insertion
    order. *)
Definition _init_managers (new : constructors) (distro : option DistroInfo)
    (run : host) : list (string * manager) :=
  (if _command_exists run "flatpak" then [("flatpak", FlatpakManager new)] else [])
  ++ (if _command_exists run "snap" then [("snap", SnapManager new)] else [])
  ++ (if match distro with Some d => supports_aur d | None => false end
         && (_command_exists run "paru" || _command_exists run "yay"
             || _command_exists run "pamac")
      then [("aur", AURManager new)] else [])
  ++ [("native", NativeManager new distro)]
  ++ (if _command_exists run "distrobox" then [("distrobox", DistroboxManager new)]
      else []).

(** [PackageManager.__init__] *)
Definition new_package_manager (new : constructors) (os_release : option string)
    (run : host) : PackageManager :=
  let distro := Some (_detect_distribution os_release run) in
  {| _distro_info := distro;
     _managers := _init_managers new distro run;
     _cache := [];
     _cache_valid := false |}.

(** [PackageManager.get_available_sources] *)
Definition get_available_sources (pm : PackageManager) : list string :=
  (_managers pm).*1.

End catalog.

(** ** Concrete hosts, processes and catalogs *)

Module scenarios.
Import models.

Definition app (pkg_id name source : string) : AppInfo :=
  {| id := pkg_id; name := name; summary := ""; description := "";
     icon_name := None; version := None; developer := None; categories := [];
     source := source; installed := false; rating := None; downloads := None;
     featured := false; update_available := false |}.

Definition firefox : AppInfo := app "org.mozilla.firefox" "Firefox" "flatpak".
Definition vim : AppInfo := app "vim" "Vim" "native".

(** A backend manager that lists [apps] and whose operations succeed. *)
Definition lists (apps : list AppInfo) : catalog.manager :=
  {| catalog.get_apps := catalog.Returns apps;
     catalog.install := λ _, catalog.Returns (true, "");
     catalog.uninstall := λ _, catalog.Returns (true, "");
     catalog.update := λ _, catalog.Returns (true, "") |}.

(** A backend manager whose operations exit with a non-zero code. *)
Definition failing (text : string) : catalog.manager :=
  {| catalog.get_apps := catalog.Returns [];
     catalog.install := λ _, catalog.Returns (false, text);
     catalog.uninstall := λ _, catalog.Returns (false, text);
     catalog.update := λ _, catalog.Returns (false, text) |}.

Definition with_managers (ms : list (string * catalog.manager))
  : catalog.PackageManager :=
  {| catalog._distro_info := None; catalog._managers := ms;
     catalog._cache := []; catalog._cache_valid := false |}.

(** Flatpak lists Firefox, the native manager lists Vim. *)
Definition two_backends : catalog.PackageManager :=
  with_managers [("flatpak", lists [firefox]); ("native", lists [vim])].

(** Flatpak lists Firefox twice (a system and a user installation). *)
Definition listed_twice : catalog.PackageManager :=
  with_managers [("flatpak", lists [firefox; firefox])].

(** [which] is installed; of the tools asked for only [present] exist. *)
Definition which_finds (present : list string) : host :=
  λ cmd,
    match cmd with
    | ["which"; tool] =>
        if decide (tool ∈ present) then Completed 0 ("/usr/bin/" +:+ tool) ""
        else Completed 1 "" ""
    | _ => Raised "not modelled"
    end.

(** A host with [yay] and [apt] only. *)
Definition yay_and_apt : host := which_finds ["yay"; "apt"].

Import installation_manager.

(** On that host [yay] would install the package; [paru] cannot be
    started. *)
Definition yay_world : world :=
  {| run := yay_and_apt;
     popen := λ cmd,
       match cmd with
       | "yay" :: _ => Spawned [Line "installing pkg..."] (Exit 0)
       | _ => SpawnRaises "[Errno 2] No such file or directory"
       end |}.

(** The process writes its last line, [cancel()] is called, and then the
    process exits with code zero. *)
Definition cancel_late : world :=
  {| run := which_finds [];
     popen := λ _, Spawned [Line "Installing org.mozilla.firefox"; CancelCall]
                     (Exit 0) |}.

(** Reading the output raises after one line. *)
Definition read_fails : world :=
  {| run := which_finds [];
     popen := λ _, Spawned [Line "abc"] (ReadRaises "codec error") |}.

Definition empty_cache : cache.AppCache :=
  {| cache._cache := ∅; cache._default_ttl := 3600 |}.

(** A clock that ticks in whole seconds: every time and every sum is
    rounded to the nearest whole number. *)
Definition whole_seconds (x : Q) : Q := inject_Z (Qfloor (x + (1 # 2))).

End scenarios.

(** * Properties *)

(** ** Strings *)

Section pystr_facts.
Import pystr.

Lemma app_cons c p x : String c p +:+ x = String c (p +:+ x).
Proof. reflexivity. Qed.

Lemma app_length s1 s2 :
  String.length (s1 +:+ s2) = (String.length s1 + String.length s2)%nat.
Proof. induction s1 as [|c s1 IH]; [done|]. rewrite app_cons. simpl. by rewrite IH. Qed.

Lemma drop_length n s : String.length (drop n s) = (String.length s - n)%nat.
Proof.
  revert s. induction n as [|n IH]; intros [|c s]; simpl; try lia. apply IH.
Qed.

Lemma drop_suffix n s : ∃ p, s = p +:+ drop n s.
Proof.
  revert s. induction n as [|n IH]; intros s.
  - by exists "".
  - destruct s as [|c s]; [by exists ""|].
    destruct (IH s) as [p Hp]. exists (String c p). rewrite app_cons. by f_equal.
Qed.

(** [s[-n:]] has at most [n] characters and is an end of [s]. *)
Lemma last_chars_length n s : (String.length (last_chars n s) ≤ n)%nat.
Proof. unfold last_chars. rewrite drop_length. lia. Qed.

Lemma last_chars_suffix n s : ∃ p, s = p +:+ last_chars n s.
Proof. apply drop_suffix. Qed.



Lemma contains_cons sub c s :
  contains sub (String c s) = String.prefix sub (String c s) || contains sub s.
Proof. reflexivity. Qed.


End pystr_facts.

(** ** The cache *)

Section cache_facts.
Import cache.

Lemma is_expired_true now e : is_expired now e = true ↔ (expires e < now)%Q.
Proof.
  unfold is_expired. rewrite negb_true_iff, <- not_true_iff_false, Qle_bool_iff.
  split; [apply Qnot_le_lt | apply Qlt_not_le].
Qed.

Lemma is_expired_false now e : is_expired now e = false ↔ (now <= expires e)%Q.
Proof. unfold is_expired. by rewrite negb_false_iff, Qle_bool_iff. Qed.

(** An entry past its expiry is answered with [None] and deleted, whatever
    put it there. *)
Lemma get_expired c k e now :
  _cache c !! k = Some e → (expires e < now)%Q →
  get k now c = (PyNone, delete_key k c) ∧ _cache (delete_key k c) !! k = None.
Proof.
  intros Hk Hexp. unfold get. rewrite Hk.
  apply is_expired_true in Hexp. rewrite Hexp. split; [done|].
  simpl. apply lookup_delete_eq.
Qed.

(** What [get] returns is the payload of an entry that has not expired. *)
Lemma get_never_stale c k now v :
  (get k now c).1 = v → v ≠ PyNone →
  ∃ e, _cache c !! k = Some e ∧ data e = v ∧ (now <= expires e)%Q.
Proof.
  unfold get. destruct (_cache c !! k) as [e|]; [|by intros <-].
  destruct (is_expired now e) eqn:E; [by intros <-|].
  intros <- _. exists e. by apply is_expired_false in E.
Qed.

Lemma get_fresh c k e now :
  _cache c !! k = Some e → (now <= expires e)%Q → get k now c = (data e, c).
Proof.
  intros Hk Hexp. unfold get. rewrite Hk.
  apply is_expired_false in Hexp. by rewrite Hexp.
Qed.

Lemma set_lookup round c k v ttl t1 t2 :
  _cache (set round k v ttl t1 t2 c) !! k
  = Some {| key := k; data := v; created := t1;
            expires := float_add round t2 (effective_ttl c ttl) |}.
Proof. unfold set. simpl. apply lookup_insert_eq. Qed.

(** Adding an int that is not negative to a float gives a float that is
    not smaller. *)
Lemma float_add_nonneg round x n :
  monotone round → is_float round 0 → is_float round x → 0 ≤ n →
  (x <= float_add round x n)%Q.
Proof.
  unfold is_float, float_add. intros Hm H0 Hx Hn.
  assert (0 <= inject_Z n)%Q as Hq.
  { change 0%Q with (inject_Z 0). by rewrite <- Zle_Qle. }
  pose proof (Hm _ _ Hq) as Hn'.
  assert (x <= x + round (inject_Z n))%Q as Hs by lra.
  pose proof (Hm _ _ Hs). lra.
Qed.

Lemma whole_seconds_monotone : monotone scenarios.whole_seconds.
Proof.
  intros x y Hxy. unfold scenarios.whole_seconds. rewrite <- Zle_Qle.
  apply Qfloor_resp_le. lra.
Qed.

(** C7, as stated, fails: with a negative [ttl] the entry is expired as
    soon as it is written, and the [get] that follows immediately returns
    [None]. The clock reads 100 and the lifetime is -1: the sum 99 is a
    double, and no rounding takes place. *)
Lemma cache_roundtrip_negative_ttl :
  (get "all-apps" 100
     (set scenarios.whole_seconds "all-apps" (PyStr "v") (Some (-1)) 100 100
        scenarios.empty_cache)).1
  ≠ PyStr "v".
Proof. vm_compute. discriminate. Qed.

(** C7 (amended): when the lifetime in force ([ttl], or the default for a
    [ttl] of [None] or [0]) is not negative, [set(key, value, ttl)]
    followed by [get(key)] at the same clock reading returns [value] and
    leaves the cache as [set] left it; so does a [get(key)] at any clock
    reading up to the expiry that [set] stored (the float sum of the clock
    reading and the lifetime). For every lifetime, once the clock is past
    that expiry, [get(key)] returns [None] and the entry is gone from the
    cache; the same holds of any entry, whatever put it there, and what
    [get] returns is never the payload of an expired entry. *)
Theorem cache_roundtrip_and_expiry (round : Q → Q) (c : AppCache) (k : string)
    (v : pyval) (ttl : option Z) (t1 t2 : Q) :
  let c' := set round k v ttl t1 t2 c in
  (monotone round → is_float round 0 → is_float round t2 →
   0 ≤ effective_ttl c ttl → get k t2 c' = (v, c'))
  ∧ (∀ now, (now <= float_add round t2 (effective_ttl c ttl))%Q →
       get k now c' = (v, c'))
  ∧ (∀ now, (float_add round t2 (effective_ttl c ttl) < now)%Q →
       get k now c' = (PyNone, delete_key k c')
       ∧ _cache (delete_key k c') !! k = None)
  ∧ (∀ c0 k0 e now, _cache c0 !! k0 = Some e → (expires e < now)%Q →
       get k0 now c0 = (PyNone, delete_key k0 c0)
       ∧ _cache (delete_key k0 c0) !! k0 = None)
  ∧ (∀ c0 k0 now v0, (get k0 now c0).1 = v0 → v0 ≠ PyNone →
       ∃ e, _cache c0 !! k0 = Some e ∧ data e = v0 ∧ (now <= expires e)%Q).
Proof.
  intros c'. split_and!.
  - intros Hm H0 Ht Httl.
    rewrite (get_fresh _ _ _ _ (set_lookup round c k v ttl t1 t2)); [done|]. simpl.
    by apply float_add_nonneg.
  - intros now Hnow.
    by rewrite (get_fresh _ _ _ _ (set_lookup round c k v ttl t1 t2)).
  - intros now Hnow.
    by apply (get_expired _ _ _ _ (set_lookup round c k v ttl t1 t2)).
  - intros c0 k0 e now. apply get_expired.
  - intros c0 k0 now v0. apply get_never_stale.
Qed.

Lemma cache_roundtrip_and_expiry_witness :
  let c' := set scenarios.whole_seconds "all-apps" (PyStr "v") (Some 60) 100 100
              scenarios.empty_cache in
  get "all-apps" 100 c' = (PyStr "v", c')
  ∧ (get "all-apps" 161 c').1 = PyNone.
Proof.
  intros c'.
  destruct (cache_roundtrip_and_expiry scenarios.whole_seconds scenarios.empty_cache
              "all-apps" (PyStr "v") (Some 60) 100 100) as (Hget & _ & Hexp & _).
  split.
  - apply Hget; [apply whole_seconds_monotone|reflexivity|reflexivity|].
    simpl. lia.
  - destruct (Hexp 161%Q) as [H _]; [reflexivity|].
    unfold c'. by rewrite H.
Defined.

End cache_facts.

(** ** The installation pipeline *)

Section installation_facts.
Import pystr installation_manager.

Lemma classify_status b line p :
  classify b line = Some p → status p = DOWNLOADING ∨ status p = INSTALLING.
Proof.
  unfold classify. destruct b;
    repeat (match goal with |- context [if ?c then _ else _] => destruct c end);
    intros [= <-]; simpl; auto.
Qed.

Lemma statuses_add_report p t : statuses (add_report p t) = statuses t ++ [status p].
Proof. unfold statuses, add_report. simpl. by rewrite fmap_app. Qed.

Lemma last_statuses t : last (statuses t) = status <$> last (reports t).
Proof. apply fmap_last. Qed.

Lemma not_last_completed t :
  COMPLETED ∉ statuses t → last (statuses t) ≠ Some COMPLETED.
Proof.
  intros Hn Hl. apply Hn. apply last_Some in Hl as [l' ->].
  rewrite elem_of_app, list_elem_of_singleton. by right.
Qed.

Lemma quiet_add_report p t :
  quiet t → status p ≠ COMPLETED → status p ≠ CANCELLED → quiet (add_report p t).
Proof.
  intros [H1 H2] ??. unfold quiet. rewrite statuses_add_report.
  split; rewrite elem_of_app, list_elem_of_singleton; intros [?|?]; congruence.
Qed.

Lemma quiet_preparing what : quiet (add_report (preparing what) new_task).
Proof. split; unfold statuses; simpl; by intros [=]%list_elem_of_singleton. Qed.

(** The loop body reports no terminal status. *)
Lemma quiet_loop_body b flag line t :
  quiet t →
  match loop_body b flag line t with
  | inl (_, t') | inr t' => quiet t'
  end.
Proof.
  intros Hq. unfold loop_body. destruct flag; [done|].
  destruct (classify b line) as [p|] eqn:E; [|done].
  apply classify_status in E.
  apply quiet_add_report; [done|..]; intros ?; destruct E; congruence.
Qed.



(** With no [cancel()] during the run every line is read and the task ends
    in the statements after the loop. *)
Lemma read_loop_no_cancel b tr fin t :
  CancelCall ∉ tr →
  ∃ t0, output_lines t0 = output_lines t ++ lines_of tr
        ∧ terminated t0 = terminated t
        ∧ read_loop b false tr fin t = (finish fin t0, false).
Proof.
  revert t. induction tr as [|e tr IH]; intros t Hnc.
  - exists t. simpl. by rewrite app_nil_r.
  - destruct e as [l| |]; simpl.
    + destruct (IH (match classify b l with
                    | Some p => add_report p (add_line l t)
                    | None => add_line l t
                    end)) as (t0 & Hout & Hterm & Hrun).
      { intros ?. apply Hnc. by right. }
      exists t0. split_and!; [| |done].
      * rewrite Hout. destruct (classify b l); simpl; by rewrite <- app_assoc.
      * rewrite Hterm. by destruct (classify b l).
    + exfalso. apply Hnc. by left.
    + apply IH. intros ?. apply Hnc. by right.
Qed.

(** However a run goes, it succeeds with [COMPLETED] as its last report and
    an exit code of zero, or it fails and never reports [COMPLETED]. *)
Lemma read_loop_outcome b flag tr fin t :
  quiet t →
  let r := read_loop b flag tr fin t in
  (r.1.1.1 = true ∧ fin = Exit 0 ∧ last (statuses r.1.2) = Some COMPLETED)
  ∨ (r.1.1.1 = false ∧ COMPLETED ∉ statuses r.1.2).
Proof.
  revert flag t. induction tr as [|e tr IH]; intros flag t Hq; simpl.
  - destruct fin as [rc|msg]; simpl.
    + unfold on_exit. destruct (decide (rc = 0)) as [->|]; simpl.
      * left. split_and!; [done..|]. rewrite statuses_add_report. apply last_snoc.
      * right. split; [done|]. rewrite statuses_add_report.
        destruct Hq. rewrite elem_of_app, list_elem_of_singleton. by intros [?|?].
    + right. split; [done|]. rewrite statuses_add_report.
      destruct Hq. rewrite elem_of_app, list_elem_of_singleton. by intros [?|?].
  - destruct e as [l| |]; [|by apply IH..].
    pose proof (quiet_loop_body b flag l t Hq) as Hb.
    destruct (loop_body b flag l t) as [[r t']|t'] eqn:E.
    + right. unfold loop_body in E. destruct flag; [|done].
      injection E as <- <-. split; [done|]. apply Hq.
    + by apply IH.
Qed.

(** The same facts for [Popen] followed by the loop, on any backend. *)
Section run_process_facts.
Variables (b : backend) (w : world) (cmd : list string) (t : task).
Hypothesis Hq : quiet t.
Hypothesis Hout : output_lines t = [].

Let r := run_process b w cmd false t.

Lemma run_process_success_exit_zero :
  r.1.1.1 = true → ∃ tr, popen w cmd = Spawned tr (Exit 0).
Proof.
  subst r. unfold run_process. destruct (popen w cmd) as [tr fin|msg]; [|done].
  intros Hs.
  destruct (read_loop_outcome b false tr fin t Hq) as [(_ & -> & _)|[Hf _]].
  - by exists tr.
  - simpl in *. congruence.
Qed.

Lemma run_process_completed_iff :
  last (statuses r.1.2) = Some COMPLETED ↔ r.1.1.1 = true.
Proof.
  subst r. unfold run_process. destruct (popen w cmd) as [tr fin|msg].
  - destruct (read_loop_outcome b false tr fin t Hq) as [(Hs & _ & Hl)|[Hf Hn]];
      simpl in *.
    + done.
    + split; [|congruence]. intros Hl. by apply not_last_completed in Hn.
  - simpl. by rewrite statuses_add_report, last_snoc.
Qed.

Lemma run_process_exit tr rc :
  popen w cmd = Spawned tr (Exit rc) → CancelCall ∉ tr →
  let output := join (lines_of tr) in
  if decide (rc = 0) then
    r.1.1 = (true, (latin1 "Instalação concluída com sucesso"))
    ∧ last (statuses r.1.2) = Some COMPLETED
  else
    r.1.1 = (false, last_chars 1000 output)
    ∧ last (reports r.1.2)
      = Some (report FAILED (latin1 "Falha na instalação") 0 (last_chars 500 output)).
Proof.
  intros Hw Hnc output. subst r. unfold run_process. rewrite Hw.
  destruct (read_loop_no_cancel b tr (Exit rc) t Hnc) as (t0 & Ht0 & _ & ->).
  simpl. unfold on_exit. rewrite Ht0, Hout. simpl.
  destruct (decide (rc = 0)); simpl.
  - by rewrite statuses_add_report, last_snoc.
  - by rewrite last_snoc.
Qed.

Lemma run_process_raises msg :
  popen w cmd = SpawnRaises msg
  ∨ (∃ tr, popen w cmd = Spawned tr (ReadRaises msg) ∧ CancelCall ∉ tr) →
  r.1.1 = (false, msg)
  ∧ last (reports r.1.2) = Some (report FAILED ("Erro: " +:+ msg) 0 "").
Proof.
  subst r. unfold run_process. intros [->|(tr & -> & Hnc)].
  - simpl. by rewrite last_snoc.
  - destruct (read_loop_no_cancel b tr (ReadRaises msg) t Hnc) as (t0 & _ & _ & ->).
    simpl. by rewrite last_snoc.
Qed.

End run_process_facts.

Lemma run_process_outcome b w cmd flag t :
  quiet t → exit_zero_or_failed w (run_process b w cmd flag t).
Proof.
  intros Hq. unfold run_process, exit_zero_or_failed.
  destruct (popen w cmd) as [tr fin|msg] eqn:Hw.
  - destruct (read_loop_outcome b flag tr fin t Hq) as [(Hs & -> & Hl)|[Hf Hn]].
    + left. split_and!; [done| |done]. by exists cmd, tr.
    + right. split; [done|]. by apply not_last_completed.
  - right. simpl. split; [done|]. by rewrite statuses_add_report, last_snoc.
Qed.

Lemma quiet_downloading what msg pct :
  quiet (add_report (report DOWNLOADING msg pct "")
           (add_report (preparing what) new_task)).
Proof. apply quiet_add_report; [apply quiet_preparing|done..]. Qed.

(** Every installation, whatever its source. *)
Lemma install_outcome w pkg_id source flag :
  exit_zero_or_failed w (_install w pkg_id source flag).
Proof.
  unfold _install. repeat case_decide.
  - apply run_process_outcome, quiet_preparing.
  - apply run_process_outcome, quiet_preparing.
  - unfold _install_aur. destruct (first_not_raising _ _).
    + apply run_process_outcome, quiet_downloading.
    + right. simpl. by split.
  - unfold _install_native. destruct (first_not_raising _ _) as [pm|].
    + destruct (native_install_cmd pm pkg_id).
      * apply run_process_outcome, quiet_downloading.
      * right. simpl. by split.
    + right. simpl. by split.
  - right. simpl. by split.
Qed.


(** [uninstall_package]: the exit code decides, as for an installation. *)
Lemma uninstall_package_exit w pkg_id source m cmd tr rc :
  uninstall_cmd w pkg_id source = inl cmd →
  popen w cmd = Spawned tr (Exit rc) →
  let c := uninstall_package w pkg_id source m in
  let output := join (lines_of tr) in
  if decide (rc = 0) then
    complete c = (true, (latin1 "Remoção concluída")) ∧ final_status c = Some COMPLETED
  else
    complete c = (false, last_chars 1000 output)
    ∧ last (progress c)
      = Some (report FAILED (latin1 "Falha na remoção") 0 (last_chars 500 output)).
Proof.
  intros Hcmd Hw. unfold uninstall_package. rewrite Hcmd, Hw.
  by destruct (decide (rc = 0)).
Qed.

(** An exception during an uninstall is passed to the completion callback
    only: no [FAILED] report is made. *)
Lemma uninstall_package_raises w pkg_id source m cmd msg :
  uninstall_cmd w pkg_id source = inl cmd →
  popen w cmd = SpawnRaises msg
  ∨ (∃ tr, popen w cmd = Spawned tr (ReadRaises msg)) →
  let c := uninstall_package w pkg_id source m in
  complete c = (false, msg) ∧ final_status c = Some PREPARING.
Proof.
  intros Hcmd Hw. unfold uninstall_package. rewrite Hcmd.
  by destruct Hw as [->|[tr ->]].
Qed.

Lemma uninstall_package_success w pkg_id source m :
  let c := uninstall_package w pkg_id source m in
  (complete c).1 = true ∨ final_status c = Some COMPLETED →
  (complete c).1 = true ∧ final_status c = Some COMPLETED
  ∧ ∃ cmd tr, uninstall_cmd w pkg_id source = inl cmd
              ∧ popen w cmd = Spawned tr (Exit 0).
Proof.
  unfold uninstall_package.
  destruct (uninstall_cmd w pkg_id source) as [cmd|msg]; [|by intros [?|?]].
  destruct (popen w cmd) as [tr [rc|msg]|msg] eqn:Hw; [|by intros [?|?]..].
  destruct (decide (rc = 0)) as [->|Hrc]; [|by intros [?|?]].
  intros _. split_and!; [done..|]. by exists cmd, tr.
Qed.

(** Calls of the other threads that come after the last line are never
    looked at: the run ends as it would without them. *)
Lemma calls_after_last_line_unnoticed b flag tr post fin t :
  lines_of post = [] →
  (read_loop b flag (tr ++ post) fin t).1 = (read_loop b flag tr fin t).1.
Proof.
  intros Hpost. revert flag t. induction tr as [|e tr IH]; intros flag t.
  - simpl. revert flag. induction post as [|e post IHp]; intros flag; [done|].
    destruct e as [l| |]; [done|apply IHp; done..].
  - destruct e as [l| |]; simpl; [|apply IH..].
    destruct (loop_body b flag l t) as [r|t']; [done|apply IH].
Qed.

(** An installation that has a command line is [Popen] on it followed by
    the loop, from a task that has reported no terminal status and read no
    line. *)
Lemma install_runs w pkg_id source flag cmd :
  install_cmd w pkg_id source = Some cmd →
  ∃ b t0, quiet t0 ∧ output_lines t0 = []
          ∧ _install w pkg_id source flag = run_process b w cmd flag t0.
Proof.
  unfold install_cmd, _install. repeat case_decide.
  - intros [= <-]. eexists _, _. split_and!; [apply quiet_preparing|done|done].
  - intros [= <-]. eexists _, _. split_and!; [apply quiet_preparing|done|done].
  - unfold _install_aur. destruct (first_not_raising _ _) as [helper|]; [|done].
    intros [= <-]. eexists _, _. split_and!; [apply quiet_downloading|done|done].
  - unfold _install_native. destruct (first_not_raising _ _) as [pm|]; [|done].
    simpl. destruct (native_install_cmd pm pkg_id) as [cmd'|]; [|done].
    intros [= <-]. eexists _, _. split_and!; [apply quiet_downloading|done|done].
  - done.
Qed.

(** Without a command line no process is started and the installation
    fails. *)
Lemma install_without_command w pkg_id source flag :
  install_cmd w pkg_id source = None →
  (_install w pkg_id source flag).1.1.1 = false
  ∧ last (statuses (_install w pkg_id source flag).1.2) ≠ Some COMPLETED
  ∧ (_install w pkg_id source flag).2 = flag.
Proof.
  unfold install_cmd, _install. repeat case_decide; try done.
  - unfold _install_aur. by destruct (first_not_raising _ _).
  - unfold _install_native. destruct (first_not_raising _ _) as [pm|]; [|done].
    simpl. by destruct (native_install_cmd pm pkg_id).
Qed.

Lemma install_package_thread w pkg_id source m :
  let r := _install w pkg_id source false in
  let c := install_package w pkg_id source m in
  complete c = r.1.1 ∧ progress c = reports r.1.2 ∧ killed c = terminated r.1.2
  ∧ _cancel_requested (manager c) = r.2.
Proof.
  cbv zeta. unfold install_package. cbn [_cancel_requested begin_install].
  by destruct (_install w pkg_id source false) as [[??]?].
Qed.





(** C4, as stated, fails: when reading the output raises, an installation
    ends [FAILED], but the text it reports is the text of the exception,
    which is no end slice of what the process wrote; and an uninstall to
    which the same happens returns that text and reports no [FAILED] at
    all, its last status being [PREPARING]. *)
Lemma exception_text_is_not_an_output_slice :
  let c := install_package scenarios.read_fails "org.mozilla.firefox" "flatpak" init in
  let u := uninstall_package scenarios.read_fails "org.mozilla.firefox" "flatpak" init in
  popen scenarios.read_fails
    ["flatpak"; "install"; "--user"; "-y"; "flathub"; "org.mozilla.firefox"]
  = Spawned [Line "abc"] (ReadRaises "codec error")
  ∧ final_status c = Some FAILED
  ∧ complete c = (false, "codec error")
  ∧ last (progress c) = Some (report FAILED "Erro: codec error" 0 "")
  ∧ (∀ n, (complete c).2 ≠ last_chars n (join (lines_of [Line "abc"])))
  ∧ complete u = (false, "codec error")
  ∧ final_status u = Some PREPARING.
Proof.
  split_and!; [done..| |done|done]. intros n H.
  destruct (last_chars_suffix n (join (lines_of [Line "abc"]))) as [p Hp].
  rewrite <- H in Hp. apply (f_equal String.length) in Hp.
  rewrite app_length in Hp.
  change (3 = String.length p + 11)%nat in Hp. lia.
Qed.

(** C4 (amended): for every installation and every uninstall, success is
    reported only when the process of its command exited with code zero,
    and [COMPLETED] is the last status exactly when success is reported.
    When the process exits and, for an installation, no [cancel()] is
    called during the run: exit code zero gives [COMPLETED] and success;
    any other exit code gives [FAILED] with the last 500 characters of the
    output as details and the last 1000 characters as the returned text.
    An exception raised by [Popen] or while reading gives, for an
    installation, [FAILED] with the text of the exception (not a slice of
    the output), and for an uninstall the text of the exception as result
    and no [FAILED] report. Every case returns a result: no exception
    leaves the call. *)
Theorem completed_only_on_exit_zero (w : world) (pkg_id source : string)
    (m : InstallationManager) :
  let c := install_package w pkg_id source m in
  let u := uninstall_package w pkg_id source m in
  ((complete c).1 = true →
   ∃ cmd tr, install_cmd w pkg_id source = Some cmd
             ∧ popen w cmd = Spawned tr (Exit 0))
  ∧ (final_status c = Some COMPLETED ↔ (complete c).1 = true)
  ∧ ((complete u).1 = true →
     ∃ cmd tr, uninstall_cmd w pkg_id source = inl cmd
               ∧ popen w cmd = Spawned tr (Exit 0))
  ∧ (final_status u = Some COMPLETED ↔ (complete u).1 = true)
  ∧ (∀ cmd tr rc, install_cmd w pkg_id source = Some cmd →
       popen w cmd = Spawned tr (Exit rc) → CancelCall ∉ tr →
       let output := join (lines_of tr) in
       if decide (rc = 0) then
         complete c = (true, latin1 "Instalação concluída com sucesso")
         ∧ final_status c = Some COMPLETED
       else
         complete c = (false, last_chars 1000 output)
         ∧ last (progress c)
           = Some (report FAILED (latin1 "Falha na instalação") 0
                     (last_chars 500 output))
         ∧ (String.length (complete c).2 ≤ 1000)%nat
         ∧ ∃ p, output = p +:+ (complete c).2)
  ∧ (∀ cmd tr rc, uninstall_cmd w pkg_id source = inl cmd →
       popen w cmd = Spawned tr (Exit rc) →
       let output := join (lines_of tr) in
       if decide (rc = 0) then
         complete u = (true, latin1 "Remoção concluída")
         ∧ final_status u = Some COMPLETED
       else
         complete u = (false, last_chars 1000 output)
         ∧ last (progress u)
           = Some (report FAILED (latin1 "Falha na remoção") 0
                     (last_chars 500 output))
         ∧ (String.length (complete u).2 ≤ 1000)%nat
         ∧ ∃ p, output = p +:+ (complete u).2)
  ∧ (∀ cmd msg, install_cmd w pkg_id source = Some cmd →
       popen w cmd = SpawnRaises msg
       ∨ (∃ tr, popen w cmd = Spawned tr (ReadRaises msg) ∧ CancelCall ∉ tr) →
       complete c = (false, msg)
       ∧ last (progress c) = Some (report FAILED ("Erro: " +:+ msg) 0 ""))
  ∧ (∀ cmd msg, uninstall_cmd w pkg_id source = inl cmd →
       popen w cmd = SpawnRaises msg
       ∨ (∃ tr, popen w cmd = Spawned tr (ReadRaises msg)) →
       complete u = (false, msg)
       ∧ final_status u = Some PREPARING
       ∧ (FAILED ∉ status <$> progress u)).
Proof.
  intros c u.
  destruct (install_package_thread w pkg_id source m) as (Hc & Hp & _ & _).
  fold c in Hc, Hp.
  assert (Hfc : final_status c
                = last (statuses (_install w pkg_id source false).1.2)).
  { unfold final_status. by rewrite Hp, last_statuses. }
  rewrite Hfc, Hc. clear Hfc.
  split_and!.
  - destruct (install_cmd w pkg_id source) as [cmd|] eqn:Hcmd.
    + destruct (install_runs w pkg_id source false cmd Hcmd) as (b & t0 & Hq & Ho & ->).
      intros [tr Htr]%run_process_success_exit_zero; [|done]. by exists cmd, tr.
    + destruct (install_without_command w pkg_id source false Hcmd) as (-> & _). done.
  - destruct (install_cmd w pkg_id source) as [cmd|] eqn:Hcmd.
    + destruct (install_runs w pkg_id source false cmd Hcmd) as (b & t0 & Hq & Ho & ->).
      by apply run_process_completed_iff.
    + destruct (install_without_command w pkg_id source false Hcmd) as (-> & Hn & _).
      by split.
  - intros Hs.
    destruct (uninstall_package_success w pkg_id source m (or_introl Hs))
      as (_ & _ & cmd & tr & ? & ?).
    by exists cmd, tr.
  - split.
    + intros Hs. by destruct (uninstall_package_success w pkg_id source m (or_intror Hs)).
    + intros Hs.
      by destruct (uninstall_package_success w pkg_id source m (or_introl Hs)) as (_ & ? & _).
  - intros cmd tr rc Hcmd Hw Hnc. rewrite Hp.
    destruct (install_runs w pkg_id source false cmd Hcmd) as (b & t0 & Hq & Ho & ->).
    pose proof (run_process_exit b w cmd t0 Ho tr rc Hw Hnc) as H.
    cbv zeta in H. destruct (decide (rc = 0)); [done|].
    destruct H as [H1 H2]. rewrite H1. split_and!; [done..| |].
    + apply last_chars_length.
    + apply last_chars_suffix.
  - intros cmd tr rc Hcmd Hw.
    pose proof (uninstall_package_exit w pkg_id source m cmd tr rc Hcmd Hw) as H.
    cbv zeta in H. fold u in H.
    destruct (decide (rc = 0)); [done|].
    destruct H as [H1 H2]. rewrite H1. split_and!; [done..| |].
    + apply last_chars_length.
    + apply last_chars_suffix.
  - intros cmd msg Hcmd Hmsg. rewrite Hp.
    destruct (install_runs w pkg_id source false cmd Hcmd) as (b & t0 & Hq & Ho & ->).
    by apply run_process_raises.
  - intros cmd msg Hcmd Hmsg.
    subst u. unfold uninstall_package, final_status. rewrite Hcmd.
    destruct Hmsg as [->|[tr ->]]; simpl; split_and!; try done;
      by intros [=]%list_elem_of_singleton.
Qed.



(** The probes of [_detect_sources] answer [False] when the check raises
    (missing binary, timeout) or exits with a code other than zero. *)
Lemma probe_unavailable run cmd :
  (∃ msg, run cmd = Raised msg)
  ∨ (∃ rc out err, run cmd = Completed rc out err ∧ rc ≠ 0) →
  app_fetcher.probe run cmd = false.
Proof.
  unfold app_fetcher.probe. intros [[msg ->]|(rc & out & err & -> & Hrc)]; [done|].
  by apply bool_decide_eq_false.
Qed.

(** A backend with several candidates is available exactly when one of them
    resolves, and the helper of [AURManager] is then the first that does. *)
Lemma probe_first_resolving run candidates :
  app_fetcher.probe_first run candidates
  = bool_decide (is_Some (backend_managers.first_resolving run candidates)).
Proof.
  induction candidates as [|c rest IH]; simpl; [done|].
  destruct (run ["which"; c]) as [rc ? ?|?]; [|done].
  by destruct (decide (rc = 0)).
Qed.

(** C5 (defect): [_install_aur] takes the first helper whose [which] call
    returns at all, whatever its exit code. On a host with [yay] and
    without [paru], [which paru] exits with code 1 and [paru] is selected all
    the same; the installation then fails to start although [yay], the first
    helper that resolves, is there. *)
Theorem install_aur_selects_unresolved_helper :
  scenarios.yay_and_apt ["which"; "paru"] = Completed 1 "" ""
  ∧ scenarios.yay_and_apt ["which"; "yay"] = Completed 0 "/usr/bin/yay" ""
  ∧ backend_managers.first_resolving scenarios.yay_and_apt aur_helpers = Some "yay"
  ∧ first_not_raising scenarios.yay_and_apt aur_helpers = Some "paru"
  ∧ complete (install_package scenarios.yay_world "yay-bin" "aur" init)
    = (false, "[Errno 2] No such file or directory").
Proof. vm_compute. done. Qed.

End installation_facts.

(** ** The catalog of utils/package_manager (1).py *)

Section catalog_facts.
Import pystr models catalog.

Lemma foldl_extend acc ms :
  foldl extend acc ms = acc ++ mjoin (contribution <$> ms).
Proof.
  revert acc. induction ms as [|sm ms IH]; intros acc; simpl.
  - by rewrite app_nil_r.
  - rewrite IH. unfold extend, contribution.
    destruct (get_apps sm.2); simpl; [by rewrite <- app_assoc|done].
Qed.

(** With no valid cache, [get_all_apps] returns the contributions of the
    managers one after the other, in the order of the dictionary. *)
Lemma get_all_apps_concat pm :
  _cache_valid pm = false →
  (get_all_apps pm).1 = mjoin (contribution <$> _managers pm).
Proof. intros H. unfold get_all_apps. rewrite H. simpl. apply foldl_extend. Qed.

Lemma refresh_cache_concat completion pm :
  _cache (refresh_cache completion pm)
  = mjoin (contribution <$> omap (λ i, _managers pm !! i) completion).
Proof. unfold refresh_cache. simpl. apply foldl_extend. Qed.

Lemma omap_lookup_seq {A} (pre l : list A) :
  omap (λ i, (pre ++ l) !! i) (seq (length pre) (length l)) = l.
Proof.
  revert pre. induction l as [|x l IH]; intros pre; simpl; [done|].
  rewrite lookup_app_r, Nat.sub_diag by done. simpl. f_equal.
  specialize (IH (pre ++ [x])). rewrite <- app_assoc, length_app in IH. simpl in IH.
  by rewrite Nat.add_1_r in IH.
Qed.

(** Whatever the order of completion, [refresh_cache] collects the same
    records as [get_all_apps], up to their order. *)
Lemma refresh_cache_permutation completion pm :
  completion ≡ₚ seq 0 (length (_managers pm)) →
  _cache (refresh_cache completion pm) ≡ₚ mjoin (contribution <$> _managers pm).
Proof.
  intros Hp. rewrite refresh_cache_concat, Hp.
  pose proof (omap_lookup_seq [] (_managers pm)) as H. simpl in H. by rewrite H.
Qed.

(** C1 (defect): [refresh_cache] appends the lists in the order in which
    the fetches complete. With Flatpak listing Firefox and the native
    manager listing Vim, the cache is Firefox, Vim when Flatpak completes
    first and Vim, Firefox when the native manager does, while
    [get_all_apps] always gives Firefox, Vim. *)
Theorem refresh_cache_follows_completion_order :
  (get_all_apps scenarios.two_backends).1 = [scenarios.firefox; scenarios.vim]
  ∧ _cache (refresh_cache [0; 1]%nat scenarios.two_backends)
    = [scenarios.firefox; scenarios.vim]
  ∧ _cache (refresh_cache [1; 0]%nat scenarios.two_backends)
    = [scenarios.vim; scenarios.firefox].
Proof. vm_compute. done. Qed.

(** C2, as stated, fails for the catalog of utils/package_manager (1).py: a
    backend that lists a record twice has it twice in the merged list. *)
Lemma catalog_keeps_a_record_listed_twice :
  (get_all_apps scenarios.listed_twice).1 = [scenarios.firefox; scenarios.firefox]
  ∧ ¬ NoDup (fingerprint <$> (get_all_apps scenarios.listed_twice).1).
Proof.
  split; [done|]. intros H.
  change (NoDup [fingerprint scenarios.firefox; fingerprint scenarios.firefox]) in H.
  apply NoDup_cons in H as [H _]. apply H. by left.
Qed.

(** Backends that tag their records with their own name and list no id
    twice give lists with no common fingerprint. *)
Lemma NoDup_contributions (ms : list (string * manager)) :
  NoDup ms.*1 →
  (∀ s m a, (s, m) ∈ ms → a ∈ contribution (s, m) → source a = s) →
  (∀ sm, sm ∈ ms → NoDup (id <$> contribution sm)) →
  NoDup (fingerprint <$> mjoin (contribution <$> ms)).
Proof.
  induction ms as [|[s m] ms IH]; intros Hkeys Hsrc Hids; simpl; [constructor|].
  apply NoDup_cons in Hkeys as [Hs Hkeys].
  rewrite fmap_app. apply NoDup_app. split_and!.
  - apply (NoDup_fmap_1 fst). rewrite <- list_fmap_compose. apply Hids. by left.
  - intros [i src] [a [Ha Hin]]%list_elem_of_fmap [a' [Ha' Hin']]%list_elem_of_fmap.
    apply list_elem_of_join in Hin' as (c & Hin' & [[s' m'] [-> Hsm]]%list_elem_of_fmap).
    injection Ha as -> ->. injection Ha' as _ Hsame.
    assert (source a = s) as Hsa by (apply (Hsrc s m a); [by left|done]).
    assert (source a' = s') as Hsa' by (apply (Hsrc s' m' a'); [by right|done]).
    assert (s' = s) as -> by congruence.
    apply Hs. apply list_elem_of_fmap. by exists (s, m').
  - apply IH; [done|..].
    + intros s' m' a ??. apply (Hsrc s' m' a); [by right|done].
    + intros sm ?. apply Hids. by right.
Qed.

(** [NativeManager.get_apps] filters the available records against the
    installed ones only: a package listed twice as available stays twice. *)
Example native_get_apps_keeps_duplicates :
  backend_managers.native_get_apps [] [scenarios.vim; scenarios.vim]
  = [scenarios.vim; scenarios.vim].
Proof. vm_compute. done. Qed.

End catalog_facts.

(** ** The fetcher of data/app_fetcher.py *)

Section fetcher_facts.
Import models popular_apps app_fetcher.
Variable POPULAR_APPS : list (string * metadata).
Variable PACKAGE_IDS : gmap string (gmap string (option string)).
Variable get_icon_name : string → string → string → option string.
Variable f : UnifiedAppFetcher.

Lemma seen_inv_add_source app_key md st src :
  seen_inv st →
  seen_inv (add_source PACKAGE_IDS get_icon_name f app_key md st src).
Proof.
  intros [Hnd Hseen]. unfold add_source.
  destruct (get_package_id PACKAGE_IDS app_key src) as [pkg_id|]; [|done].
  destruct (decide (cache_key pkg_id src ∈ st.2)) as [|Hnew]; [done|].
  split; simpl.
  - rewrite fmap_app. apply NoDup_app. split_and!; [done| |apply NoDup_singleton].
    intros k [app [-> Hin]]%list_elem_of_fmap [= Hk]%list_elem_of_singleton.
    apply Hnew. unfold key_of in Hk. simpl in Hk. rewrite <- Hk. by apply Hseen.
  - intros app [Hin|[= ->]%list_elem_of_singleton]%elem_of_app.
    + apply elem_of_union_r. by apply Hseen.
    + apply elem_of_union_l. by apply elem_of_singleton.
Qed.

Lemma seen_inv_add_key st app_key :
  seen_inv st → seen_inv (add_key POPULAR_APPS PACKAGE_IDS get_icon_name f st app_key).
Proof.
  intros Hinv. unfold add_key.
  destruct (get_app_metadata POPULAR_APPS app_key) as [md|]; [|done].
  revert st Hinv.
  induction (get_available_sources f) as [|src l IH]; intros st Hinv; [done|].
  simpl. apply IH. by apply seen_inv_add_source.
Qed.

Lemma fetcher_fingerprints_unique :
  NoDup (fingerprint <$> (get_all_apps POPULAR_APPS PACKAGE_IDS get_icon_name f).1).
Proof.
  unfold get_all_apps. simpl.
  assert (Hinv : seen_inv (foldl (add_key POPULAR_APPS PACKAGE_IDS get_icon_name f)
                            ([], ∅) (get_popular_app_keys POPULAR_APPS))).
  { generalize (get_popular_app_keys POPULAR_APPS).
    assert (H0 : seen_inv ([], ∅)) by (split; [constructor|by intros ? ?%elem_of_nil]).
    revert H0. generalize (([], ∅) : list AppInfo * gset string).
    intros st H0 l. revert st H0. induction l as [|k l IH]; intros st H0; [done|].
    simpl. apply IH. by apply seen_inv_add_key. }
  destruct Hinv as [Hnd _].
  apply (NoDup_fmap_1 (λ p : string * string, cache_key p.1 p.2)).
  by rewrite <- list_fmap_compose.
Qed.

End fetcher_facts.

(** C2 (amended): the list [UnifiedAppFetcher.get_all_apps] returns has
    every (id, source) pair at most once, whatever the tables, the available
    sources and the installed packages. [PackageManager.get_all_apps] of
    utils/package_manager (1).py, when it rebuilds its cache, returns the
    lists of the managers one after the other as they are; that list has
    every pair at most once when the managers have distinct names, each
    tags its records with its own name and none lists an id twice. *)
Theorem merged_fingerprints_unique
    (POPULAR_APPS : list (string * popular_apps.metadata))
    (PACKAGE_IDS : gmap string (gmap string (option string)))
    (get_icon_name : string → string → string → option string)
    (f : app_fetcher.UnifiedAppFetcher) (pm : catalog.PackageManager) :
  NoDup (models.fingerprint
           <$> (app_fetcher.get_all_apps POPULAR_APPS PACKAGE_IDS get_icon_name f).1)
  ∧ (catalog._cache_valid pm = false →
     (catalog.get_all_apps pm).1
     = mjoin (catalog.contribution <$> catalog._managers pm)
     ∧ (NoDup (catalog._managers pm).*1 →
        (∀ s m a, (s, m) ∈ catalog._managers pm →
                  a ∈ catalog.contribution (s, m) → models.source a = s) →
        (∀ sm, sm ∈ catalog._managers pm →
               NoDup (models.id <$> catalog.contribution sm)) →
        NoDup (models.fingerprint <$> (catalog.get_all_apps pm).1))).
Proof.
  split; [apply fetcher_fingerprints_unique|].
  intros Hv. pose proof (get_all_apps_concat pm Hv) as Heq. split; [done|].
  intros Hkeys Hsrc Hids. rewrite Heq. by apply NoDup_contributions.
Qed.

Lemma merged_fingerprints_unique_witness :
  NoDup (models.fingerprint <$> (catalog.get_all_apps scenarios.two_backends).1).
Proof.
  refine (proj2 (proj2 (merged_fingerprints_unique [] ∅ (λ _ _ _, None)
                   {| app_fetcher._available_sources := [];
                      app_fetcher._apps_cache := [];
                      app_fetcher._installed_cache := ∅ |}
                   scenarios.two_backends) eq_refl) _ _ _).
  - apply NoDup_cons. split; [|apply NoDup_singleton].
    by intros [=]%list_elem_of_singleton.
  - intros s m a [[= -> ->]|[= -> ->]%list_elem_of_singleton]%elem_of_cons;
      by intros [= ->]%list_elem_of_singleton.
  - intros sm [->|H%list_elem_of_singleton]%elem_of_cons; [|subst sm];
      apply NoDup_singleton.
Defined.

(** ** Operations on one record *)

Section operations.
Import models catalog.

Lemma operate_failure method on_success app pm :
  (callback (operate method on_success app pm)).1 = false →
  app_after (operate method on_success app pm) = app
  ∧ pm_after (operate method on_success app pm) = pm.
Proof.
  unfold operate. destruct (lookup_manager pm (source app)) as [mgr|]; [|done].
  destruct (method mgr (id app)) as [[[] text]|msg]; [|done..].
  by destruct (on_success app pm).
Qed.

Lemma operate_success method on_success app pm :
  (callback (operate method on_success app pm)).1 = true →
  app_after (operate method on_success app pm) = (on_success app pm).1.
Proof.
  unfold operate. destruct (lookup_manager pm (source app)) as [mgr|]; [|done].
  destruct (method mgr (id app)) as [[[] text]|msg]; [|done..].
  by destruct (on_success app pm).
Qed.

Lemma operate_reports method on_success app pm mgr ok text :
  lookup_manager pm (source app) = Some mgr →
  method mgr (id app) = Returns (ok, text) →
  callback (operate method on_success app pm) = (ok, text).
Proof.
  intros Hm Hr. unfold operate. rewrite Hm, Hr.
  destruct ok; [by destruct (on_success app pm)|done].
Qed.

(** A manager whose call raises: the handler reports the text of the
    exception as a failure and nothing is assigned. *)
Lemma operate_raises method on_success app pm mgr msg :
  lookup_manager pm (source app) = Some mgr →
  method mgr (id app) = Raises msg →
  operate method on_success app pm
  = {| app_after := app; callback := (false, msg); pm_after := pm |}.
Proof. intros Hm Hr. unfold operate. by rewrite Hm, Hr. Qed.

(** C6: in both package managers, an install or uninstall that reports
    failure leaves the record as it was (so [installed] is unchanged), and
    one that reports success leaves [installed] true after an install and
    false after an uninstall; a successful update leaves [update_available]
    false and [installed] as it was, a failed one leaves the record as it
    was. The callback receives the success flag and the text the backend
    returned; when the backend raises, it receives a failure with the text
    of the exception, and the record and the catalog stay as they were. *)
Theorem failed_operation_leaves_installed (run : host) (app : AppInfo)
    (pm : PackageManager) :
  (* managers/package_manager.py *)
  (let '(app', (success, text)) := package_manager.install_app run app in
   (success, text) = package_manager._install_package run (id app) (source app)
   ∧ if success then installed app' = true else app' = app)
  ∧ (let '(app', (success, text)) := package_manager.uninstall_app run app in
     (success, text) = package_manager._uninstall_package run (id app) (source app)
     ∧ if success then installed app' = false else app' = app)
  (* utils/package_manager (1).py *)
  ∧ (let r := install_app app pm in
     if (callback r).1 then installed (app_after r) = true else app_after r = app)
  ∧ (let r := uninstall_app app pm in
     if (callback r).1 then installed (app_after r) = false else app_after r = app)
  ∧ (let r := update_app app pm in
     if (callback r).1
     then update_available (app_after r) = false
          ∧ installed (app_after r) = installed app
     else app_after r = app)
  ∧ (∀ mgr ok text, lookup_manager pm (source app) = Some mgr →
       (install mgr (id app) = Returns (ok, text) →
        callback (install_app app pm) = (ok, text))
       ∧ (uninstall mgr (id app) = Returns (ok, text) →
          callback (uninstall_app app pm) = (ok, text))
       ∧ (update mgr (id app) = Returns (ok, text) →
          callback (update_app app pm) = (ok, text)))
  ∧ (∀ mgr msg, lookup_manager pm (source app) = Some mgr →
       (install mgr (id app) = Raises msg →
        install_app app pm
        = {| app_after := app; callback := (false, msg); pm_after := pm |})
       ∧ (uninstall mgr (id app) = Raises msg →
          uninstall_app app pm
          = {| app_after := app; callback := (false, msg); pm_after := pm |})
       ∧ (update mgr (id app) = Raises msg →
          update_app app pm
          = {| app_after := app; callback := (false, msg); pm_after := pm |}))
  ∧ (∀ msg, source app = "flatpak" →
       (run ["flatpak"; "install"; "-y"; "flathub"; id app] = Raised msg →
        package_manager.install_app run app = (app, (false, msg)))
       ∧ (run ["flatpak"; "uninstall"; "-y"; id app] = Raised msg →
          package_manager.uninstall_app run app = (app, (false, msg)))).
Proof.
  split_and!.
  - unfold package_manager.install_app.
    destruct (package_manager._install_package _ _ _) as [[] text]; done.
  - unfold package_manager.uninstall_app.
    destruct (package_manager._uninstall_package _ _ _) as [[] text]; done.
  - cbv zeta. unfold install_app.
    match goal with |- context [callback ?r] => destruct (callback r).1 eqn:E end.
    + by rewrite (operate_success _ _ _ _ E).
    + by apply operate_failure.
  - cbv zeta. unfold uninstall_app.
    match goal with |- context [callback ?r] => destruct (callback r).1 eqn:E end.
    + by rewrite (operate_success _ _ _ _ E).
    + by apply operate_failure.
  - cbv zeta. unfold update_app.
    match goal with |- context [callback ?r] => destruct (callback r).1 eqn:E end.
    + by rewrite (operate_success _ _ _ _ E).
    + by apply operate_failure.
  - intros mgr ok text Hm. split_and!; intros Hr; by apply (operate_reports _ _ _ _ mgr).
  - intros mgr msg Hm. split_and!; intros Hr; by apply (operate_raises _ _ _ _ mgr).
  - intros msg Hs. split; intros Hr.
    + unfold package_manager.install_app, package_manager._install_package.
      rewrite Hs. simpl. unfold package_manager.run_once. by rewrite Hr.
    + unfold package_manager.uninstall_app, package_manager._uninstall_package.
      rewrite Hs. simpl. unfold package_manager.run_once. by rewrite Hr.
Qed.

End operations.

(** ** Search *)

Section search.
Import pystr models catalog popular_apps.








(** The scenario of the specification, and one with an accented letter. *)
Example search_firefox :
  search_apps "firefox" None scenarios.two_backends = [scenarios.firefox]
  ∧ search_apps "FIREFOX" None scenarios.two_backends = [scenarios.firefox]
  ∧ let rapido := scenarios.app "rapido" (latin1 "Rápido") "native" in
    let pm := scenarios.with_managers [("native", scenarios.lists [rapido])] in
    same_up_to_case (latin1 "RÁPIDO") (latin1 "rápido")
    ∧ search_apps (latin1 "RÁPIDO") None pm = [rapido]
    ∧ search_apps (latin1 "rápido") None pm = [rapido].
Proof.
  split; [by vm_compute|]. split; [by vm_compute|]. cbv zeta.
  split; [|by vm_compute].
  cbn. repeat split; right; left; apply (bool_decide_unpack _); by vm_compute.
Qed.

(** [search_popular_apps] lowers the query too; it looks in the key, the
    name and the summary of the table. *)
Lemma search_popular_apps_case_insensitive POPULAR_APPS query query' :
  lower query = lower query' →
  search_popular_apps POPULAR_APPS query = search_popular_apps POPULAR_APPS query'.
Proof. intros Hq. unfold search_popular_apps. by rewrite Hq. Qed.

End search.

(** ** Distribution detection *)

Section detection.
Import pystr models catalog.

(** A file that names a known family decides alone. *)
Lemma detect_distribution_known content run :
  distro_type (_parse_os_release content) ≠ UNKNOWN →
  _detect_distribution (Some content) run = _parse_os_release content.
Proof.
  intros H. unfold _detect_distribution. simpl.
  by destruct (decide (distro_type (_parse_os_release content) = UNKNOWN)).
Qed.

(** With no file, or a file that names no known family, the answer is the
    one of the probes, or the inert profile when they find nothing. *)
Lemma detect_distribution_fallback os_release run :
  os_release = None
  ∨ (∃ content, os_release = Some content
                ∧ distro_type (_parse_os_release content) = UNKNOWN) →
  _detect_distribution os_release run
  = default unknown_profile (_detect_via_package_manager run).
Proof.
  intros [->|(content & -> & H)]; unfold _detect_distribution; simpl; [done|].
  by destruct (decide (distro_type (_parse_os_release content) = UNKNOWN)).
Qed.

(** The probes go through the table in order and stop at the first command
    for which [_command_exists] answers [True]. *)
Lemma detect_in_first command_exists table :
  detect_in command_exists table
  = (λ r : nat * (string * string * string * bool),
       auto_detected r.2.1.1.2 r.2.1.2 r.2.2)
    <$> list_find (λ e, command_exists e.1.1.1 = true) table.
Proof.
  induction table as [|[[[cmd base] pm] aur] table IH]; simpl; [done|].
  destruct (command_exists cmd) eqn:E.
  - by rewrite decide_True.
  - rewrite decide_False by done. rewrite IH.
    by destruct (list_find _ table) as [[??]|].
Qed.

(** When every [which] call raises, the inert profile is returned. *)
Lemma detect_distribution_inert os_release run :
  os_release = None
  ∨ (∃ content, os_release = Some content
                ∧ distro_type (_parse_os_release content) = UNKNOWN) →
  (∀ cmd, ∃ msg, run ["which"; cmd] = Raised msg) →
  _detect_distribution os_release run = unknown_profile.
Proof.
  intros Hf Hrun. rewrite detect_distribution_fallback by done.
  unfold _detect_via_package_manager, package_managers, detect_in, _command_exists.
  destruct (Hrun "pacman") as [? ->]. destruct (Hrun "apt") as [? ->].
  destruct (Hrun "dnf") as [? ->]. by destruct (Hrun "zypper") as [? ->].
Qed.

(** C9 (defect): [_command_exists] answers [True] whenever [which] returns,
    whatever its exit code. On a host with [apt] and without [pacman], with
    no /etc/os-release or one that names an unknown family, [which pacman]
    exits with code 1 and the profile is the Arch one all the same, although
    [apt] is the first package manager that responds. *)
Theorem detect_distribution_ignores_exit_status :
  scenarios.yay_and_apt ["which"; "pacman"] = Completed 1 "" ""
  ∧ scenarios.yay_and_apt ["which"; "apt"] = Completed 0 "/usr/bin/apt" ""
  ∧ backend_managers.first_resolving scenarios.yay_and_apt
      ["pacman"; "apt"; "dnf"; "zypper"] = Some "apt"
  ∧ _detect_distribution None scenarios.yay_and_apt
    = auto_detected "arch" "pacman" true
  ∧ _detect_distribution (Some "NAME=Linux Mint") scenarios.yay_and_apt
    = auto_detected "arch" "pacman" true.
Proof. vm_compute. done. Qed.

End detection.

(** * Further properties of the code *)

Lemma filter_none {A} (P : A → Prop) `{!∀ x, Decision (P x)} (l : list A) :
  Forall (λ x, ¬ P x) l → filter P l = [].
Proof.
  induction 1 as [|x l Hx _ IH]; [done|]. by rewrite filter_cons, decide_False.
Qed.

(** ** The cache: other keys, cleanup and the file *)

Section cache_more.
Import cache.

(** X1: [set] and [delete] on one key leave every other key as it was:
    a later [get] of another key returns what it returned before. After
    [delete] the key itself is absent, and deleting an absent key changes
    nothing. *)
Theorem cache_keys_are_independent (round : Q → Q) (c : AppCache) (k k' : string)
    (v : pyval) (ttl : option Z) (t1 t2 now : Q) :
  k ≠ k' →
  (get k' now (set round k v ttl t1 t2 c)).1 = (get k' now c).1
  ∧ (get k' now (delete_key k c)).1 = (get k' now c).1
  ∧ get k now (delete_key k c) = (PyNone, delete_key k c)
  ∧ (_cache c !! k = None → _cache (delete_key k c) = _cache c).
Proof.
  intros Hne. unfold get, set, delete_key. simpl.
  rewrite lookup_insert_ne, lookup_delete_ne, lookup_delete_eq by done.
  split_and!; [| |done|apply delete_id];
    destruct (_cache c !! k') as [e|]; try done; by destruct (is_expired now e).
Qed.

Lemma cache_keys_are_independent_witness :
  let c := set scenarios.whole_seconds "flatpak-apps" (PyStr "v") None 100 100
             scenarios.empty_cache in
  (get "flatpak-apps" 200
     (set scenarios.whole_seconds "snap-apps" (PyInt 3) (Some 60) 150 150 c)).1
  = (get "flatpak-apps" 200 c).1.
Proof.
  intros c.
  refine (proj1 (cache_keys_are_independent scenarios.whole_seconds c "snap-apps"
                   "flatpak-apps" (PyInt 3) (Some 60) 150 150 200 _)).
  discriminate.
Defined.

Lemma cleanup_lookup now c k :
  _cache (cleanup_expired now c) !! k
  = e ← _cache c !! k; if is_expired now e then None else Some e.
Proof.
  unfold cleanup_expired. simpl.
  destruct (_cache c !! k) as [e|] eqn:Hk; simpl.
  - destruct (is_expired now e) eqn:He.
    + apply map_lookup_filter_None. right. intros e' ? ?. simplify_eq/=. congruence.
    + apply map_lookup_filter_Some. done.
  - apply map_lookup_filter_None. by left.
Qed.

(** X2: [cleanup_expired] removes the expired entries and no other: an
    entry is there afterwards exactly when it was there and has not
    expired. No [get] changes its answer, and [get_stats] then counts no
    expired entry. *)
Theorem cleanup_expired_removes_exactly_expired (c : AppCache) (now : Q) (k : string) :
  (∀ e, _cache (cleanup_expired now c) !! k = Some e
        ↔ _cache c !! k = Some e ∧ (now <= expires e)%Q)
  ∧ (get k now (cleanup_expired now c)).1 = (get k now c).1
  ∧ (get_stats now (cleanup_expired now c)).2 = 0.
Proof.
  split_and!.
  - intros e. rewrite cleanup_lookup.
    destruct (_cache c !! k) as [e'|]; simpl; [|by split; [|intros [? _]]].
    destruct (is_expired now e') eqn:He.
    + apply is_expired_true in He. split; [done|]. intros [[= ->] ?]. lra.
    + apply is_expired_false in He. split; [by intros [= ->]|by intros [? _]].
  - unfold get. rewrite cleanup_lookup.
    destruct (_cache c !! k) as [e|]; simpl; [|done].
    destruct (is_expired now e) eqn:He; simpl; [done|]. by rewrite He.
  - unfold get_stats. simpl. rewrite filter_none; [done|].
    apply Forall_forall. intros e [[k' e'] [-> Hin]]%list_elem_of_fmap.
    apply elem_of_map_to_list in Hin.
    apply map_lookup_filter_Some in Hin as [_ Hne]. simpl in *. congruence.
Qed.

(** X3: [get_or_set] returns the stored value without calling the factory
    when the key holds a value that has not expired and is not [None];
    when [get] finds nothing it calls the factory, returns its value and
    stores it, so that a [get] right after returns it (for a lifetime that
    is not negative, float addition keeping the order and leaving the clock
    reading as it is). *)
Theorem get_or_set_caches (round : Q → Q) (c : AppCache) (k : string)
    (factory : pyval) (ttl : option Z) (t0 t1 t2 : Q) :
  let r := get_or_set round k factory ttl t0 t1 t2 c in
  (∀ e, _cache c !! k = Some e → (t0 <= expires e)%Q → data e ≠ PyNone →
        r = (data e, false, c))
  ∧ ((get k t0 c).1 = PyNone →
     r.1.1 = factory ∧ r.1.2 = true
     ∧ (monotone round → is_float round 0 → is_float round t2 →
        0 ≤ effective_ttl c ttl → (get k t2 r.2).1 = factory)).
Proof.
  intros r. subst r. unfold get_or_set. split.
  - intros e Hk Hexp Hd. rewrite (get_fresh _ _ _ _ Hk Hexp). by destruct (data e).
  - destruct (get k t0 c) as [v c1] eqn:Hg. simpl. intros Hv. subst v. simpl. split_and!; [done..|].
    intros Hm H0 Ht Httl. assert (_default_ttl c1 = _default_ttl c) as Hd.
    { unfold get in Hg. destruct (_cache c !! k) as [e|]; [|by simplify_eq].
      destruct (is_expired t0 e); by simplify_eq. }
    assert (effective_ttl c1 ttl = effective_ttl c ttl) as Heff
      by (unfold effective_ttl; by rewrite Hd).
    rewrite (get_fresh _ _ _ _ (set_lookup round c1 k factory ttl t1 t2)); [done|].
    simpl. rewrite Heff. by apply float_add_nonneg.
Qed.

(** What an entry of the cache file becomes. *)
Lemma load_lookup round now dflt (entries : gmap string file_entry)
    (m : gmap string CacheEntry) k :
  map_fold (load_entry round now dflt) m entries !! k
  = match entries !! k with
    | Some entry =>
        if negb (Qle_bool (default 0%Q (f_expires entry)) now) then
          Some {| key := k; data := default PyNone (f_data entry);
                  created := default now (f_created entry);
                  expires := default (float_add round now dflt) (f_expires entry) |}
        else m !! k
    | None => m !! k
    end.
Proof.
  induction entries as [|i x entries Hi Hfirst IH] using map_first_key_ind.
  - by rewrite map_fold_empty, lookup_empty.
  - rewrite map_fold_insert_first_key by done.
    unfold load_entry at 1.
    destruct (decide (i = k)) as [->|Hne].
    + rewrite lookup_insert_eq.
      destruct (negb _); [by rewrite lookup_insert_eq|].
      by rewrite IH, Hi.
    + rewrite (lookup_insert_ne entries) by done.
      destruct (negb _); [rewrite lookup_insert_ne by done|]; apply IH.
Qed.

(** X4: a cache opened on a file holds only entries that have not expired
    at that time, each under its own key and with the payload of the file,
    and [get] serves them. *)
Theorem load_skips_expired (round : Q → Q) (file : cache_file) (default_ttl : Z)
    (now : Q) (k : string) (e : CacheEntry) :
  (0 <= now)%Q →
  _cache (new_cache round file default_ttl now) !! k = Some e →
  (now < expires e)%Q ∧ key e = k
  ∧ get k now (new_cache round file default_ttl now)
    = (data e, new_cache round file default_ttl now)
  ∧ ∃ entries entry, file = Json entries ∧ entries !! k = Some entry
                     ∧ f_expires entry = Some (expires e)
                     ∧ data e = default PyNone (f_data entry).
Proof.
  intros Hnow Hk. pose proof Hk as Hk'. revert Hk.
  unfold new_cache. destruct file as [| |entries]; simpl; [done..|].
  rewrite load_lookup.
  destruct (entries !! k) as [entry|] eqn:Hek; [|done].
  destruct (negb _) eqn:Hkeep; [|done].
  apply negb_true_iff, not_true_iff_false in Hkeep. rewrite Qle_bool_iff in Hkeep.
  apply Qnot_le_lt in Hkeep.
  destruct (f_expires entry) as [x|] eqn:Hx; simpl in *; [|lra].
  intros [= <-]. simpl. split_and!; [done..| |by exists entries, entry].
  unfold get. simpl. rewrite Hk'.
  match goal with |- context [is_expired now ?e] =>
    assert (is_expired now e = false) as -> by (apply is_expired_false; simpl; lra)
  end. done.
Qed.

Lemma load_skips_expired_witness :
  let file := Json {[ "all-apps" := {| f_data := Some (PyStr "v");
                                       f_created := Some 10%Q;
                                       f_expires := Some 200%Q |} ]} in
  get "all-apps" 100 (new_cache scenarios.whole_seconds file 3600 100)
  = (PyStr "v", new_cache scenarios.whole_seconds file 3600 100).
Proof.
  intros file.
  refine (proj1 (proj2 (proj2 (load_skips_expired scenarios.whole_seconds file 3600
            100 "all-apps"
            {| key := "all-apps"; data := PyStr "v"; created := 10; expires := 200 |}
            _ _)))).
  - done.
  - vm_compute. reflexivity.
Defined.

(** X5: saving a cache whose payloads [json.dump] accepts and opening a
    new cache on the file gives back exactly the entries that have not
    expired when the file is read. *)
Theorem save_load_roundtrip (round : Q → Q) (c : AppCache) (now : Q) (k : string)
    (e : CacheEntry) :
  keyed c →
  map_Forall (λ _ e, json_value (data e) = true) (_cache c) →
  _cache (new_cache round (_save_persistent_cache c) (_default_ttl c) now) !! k
  = Some e
  ↔ _cache c !! k = Some e ∧ (now < expires e)%Q.
Proof.
  intros Hkeyed Hjson. unfold _save_persistent_cache.
  rewrite bool_decide_eq_true_2 by done. simpl.
  rewrite load_lookup, lookup_fmap, lookup_empty.
  destruct (_cache c !! k) as [e'|] eqn:Hk; simpl; [|by split; [|intros [? _]]].
  pose proof (Hkeyed k e' Hk) as Hkey.
  destruct (negb _) eqn:Hkeep.
  - apply negb_true_iff, not_true_iff_false in Hkeep. rewrite Qle_bool_iff in Hkeep.
    apply Qnot_le_lt in Hkeep. rewrite <- Hkey. destruct e'; simpl in *.
    split; [by intros [= <-]|by intros [? _]].
  - apply negb_false_iff in Hkeep. rewrite Qle_bool_iff in Hkeep.
    split; [done|]. intros [[= ->] ?]. lra.
Qed.

Lemma save_load_roundtrip_witness :
  let c := set scenarios.whole_seconds "all-apps" (PyStr "v") (Some 60) 100 100
             scenarios.empty_cache in
  (_cache (new_cache scenarios.whole_seconds (_save_persistent_cache c)
             (_default_ttl c) 120) !! "all-apps"
   = Some {| key := "all-apps"; data := PyStr "v"; created := 100;
             expires := float_add scenarios.whole_seconds 100 60 |}).
Proof.
  intros c.
  apply (save_load_roundtrip scenarios.whole_seconds c 120 "all-apps").
  - intros k e. unfold c, set. simpl.
    intros [[<- <-]|[_ ?]]%lookup_insert_Some; [done|by rewrite lookup_empty in *].
  - unfold c, set. simpl. apply map_Forall_insert_2; [done|apply map_Forall_empty].
  - split; [apply set_lookup|reflexivity].
Defined.

End cache_more.

(** ** The installation pipeline: reports and uninstall *)

Section installation_more.
Import pystr installation_manager.

Lemma take_length n s : (String.length (take n s) ≤ n)%nat.
Proof.
  revert s. induction n as [|n IH]; intros [|c s]; simpl; try lia.
  specialize (IH s). lia.
Qed.

Lemma classify_in_range b line p : classify b line = Some p → 0 ≤ percentage p ≤ 100.
Proof.
  unfold classify. destruct b;
    repeat (match goal with |- context [if ?c then _ else _] => destruct c end);
    intros [= <-]; simpl; lia.
Qed.

Lemma classify_details b line p :
  b = Aur ∨ b = Native → classify b line = Some p →
  (String.length (details p) ≤ 100)%nat.
Proof.
  unfold classify. generalize (take_length 100 (strip line)).
  generalize (take 100 (strip line)). intros d Hd.
  intros [-> | ->];
    repeat (match goal with |- context [if ?c then _ else _] => destruct c end);
    intros [= <-]; exact Hd.
Qed.

(** The loop and what follows it only add reports, and an invariant of the
    reports they can add holds of all they add. *)
Section appended_reports.
Variable P : InstallProgress → Prop.
Variable b : backend.
Hypothesis Hclassify : ∀ line p, classify b line = Some p → P p.
Hypothesis Hcompleted : P (report COMPLETED (latin1 "Instalação concluída!") 100 "").
Hypothesis Hfailed : ∀ s, P (report FAILED (latin1 "Falha na instalação") 0 (last_chars 500 s)).
Hypothesis Herror : ∀ msg, P (report FAILED msg 0 "").

Lemma read_loop_appends flag tr fin t :
  ∃ more, reports (read_loop b flag tr fin t).1.2 = reports t ++ more ∧ Forall P more.
Proof.
  revert flag t. induction tr as [|e tr IH]; intros flag t; simpl.
  - destruct fin as [rc|msg]; simpl.
    + unfold on_exit. destruct (decide (rc = 0)); simpl; eexists; split; try done;
        by repeat constructor.
    + eexists. split; [done|]. by repeat constructor.
  - destruct e as [l| |]; [|by apply IH..].
    unfold loop_body. destruct flag.
    { exists []. simpl. by rewrite app_nil_r. }
    destruct (classify b l) as [p|] eqn:E.
    + destruct (IH false (add_report p (add_line l t))) as (more & -> & Hm).
      exists (p :: more). simpl. rewrite <- app_assoc. split; [done|].
      constructor; [by eapply Hclassify|done].
    + apply (IH false (add_line l t)).
Qed.

Lemma run_process_appends w cmd flag t :
  ∃ more, reports (run_process b w cmd flag t).1.2 = reports t ++ more ∧ Forall P more.
Proof.
  unfold run_process. destruct (popen w cmd) as [tr fin|msg].
  - apply read_loop_appends.
  - simpl. eexists. split; [done|]. by repeat constructor.
Qed.
End appended_reports.

Lemma later_report_classify b source line p :
  (source = "aur" ∨ source = "native" → b = Aur ∨ b = Native) →
  classify b line = Some p → later_report source p.
Proof.
  intros Hb Hc. split; [|split].
  - destruct (classify_status _ _ _ Hc) as [H|H]; by rewrite H.
  - by eapply classify_in_range.
  - intros Hs. pose proof (classify_details b line p (Hb Hs) Hc). lia.
Qed.

Lemma later_report_fixed source st msg pct :
  st ≠ PREPARING → 0 ≤ pct ≤ 100 → later_report source (report st msg pct "").
Proof. intros. split; [|split]; [done..|]. intros _. simpl. lia. Qed.

Lemma later_report_failed source s :
  later_report source (report FAILED (latin1 "Falha na instalação") 0 (last_chars 500 s)).
Proof.
  split; [|split]; [done|simpl; lia|]. intros _. apply last_chars_length.
Qed.

Lemma run_process_later b source w cmd flag t :
  (source = "aur" ∨ source = "native" → b = Aur ∨ b = Native) →
  ∃ more, reports (run_process b w cmd flag t).1.2 = reports t ++ more
          ∧ Forall (later_report source) more.
Proof.
  intros Hb. apply run_process_appends.
  - intros line p. by apply later_report_classify.
  - by apply later_report_fixed.
  - apply later_report_failed.
  - intros msg. by apply later_report_fixed.
Qed.

(** What [_install] reports: [PREPARING] first for a known source, then
    reports that are no [PREPARING]. *)
Lemma install_reports w pkg_id source flag :
  ∃ more,
    reports (_install w pkg_id source flag).1.2
    = (if bool_decide (known_source source) then [preparing pkg_id] else []) ++ more
    ∧ Forall (later_report source) more.
Proof.
  assert (Hin : ∀ x, x ∈ ["flatpak"; "snap"; "aur"; "native"] →
            bool_decide (known_source x) = true).
  { intros. by apply bool_decide_eq_true_2. }
  assert (Ha : "flatpak" ∈ ["flatpak"; "snap"; "aur"; "native"]) by (by left).
  assert (Hb : "snap" ∈ ["flatpak"; "snap"; "aur"; "native"])
    by (right; by left).
  assert (Hc : "aur" ∈ ["flatpak"; "snap"; "aur"; "native"])
    by (do 2 right; by left).
  assert (Hd : "native" ∈ ["flatpak"; "snap"; "aur"; "native"])
    by (do 3 right; by left).
  unfold _install.
  destruct (decide (source = "flatpak")) as [->|H1].
  { rewrite Hin by done. apply run_process_later. by intros [?|?]. }
  destruct (decide (source = "snap")) as [->|H2].
  { rewrite Hin by done. apply run_process_later. by intros [?|?]. }
  destruct (decide (source = "aur")) as [->|H3].
  { rewrite Hin by done. unfold _install_aur.
    destruct (first_not_raising (run w) aur_helpers) as [helper|].
    - match goal with |- context [run_process Aur w ?cmd flag ?t] =>
        destruct (run_process_later Aur "aur" w cmd flag t) as (more & -> & Hm);
          [by left|]
      end.
      eexists. simpl. split; [done|]. constructor; [|done].
      by apply later_report_fixed.
    - eexists. simpl. split; [done|].
      repeat constructor; by apply later_report_fixed. }
  destruct (decide (source = "native")) as [->|H4].
  { rewrite Hin by done. unfold _install_native.
    destruct (first_not_raising (run w) native_managers) as [pm|].
    - destruct (native_install_cmd pm pkg_id) as [cmd|].
      + match goal with |- context [run_process Native w ?cmd flag ?t] =>
          destruct (run_process_later Native "native" w cmd flag t)
            as (more & -> & Hm); [by right|]
        end.
        eexists. simpl. split; [done|]. constructor; [|done].
        by apply later_report_fixed.
      + exists []. by split.
    - eexists. simpl. split; [done|].
      repeat constructor; by apply later_report_fixed. }
  rewrite bool_decide_eq_false_2.
  - exists []. by split.
  - unfold known_source. rewrite !elem_of_cons, elem_of_nil. tauto.
Qed.

Lemma install_package_progress w pkg_id source m :
  progress (install_package w pkg_id source m)
  = reports (_install w pkg_id source false).1.2.
Proof.
  unfold install_package. cbn [_cancel_requested begin_install].
  by destruct (_install w pkg_id source false) as [[??]?].
Qed.

(** X6: every progress report of an install or an uninstall has a
    percentage between 0 and 100, and the details of a report of an AUR or
    native install have at most 500 characters. *)
Theorem progress_percentages_in_range (w : world) (pkg_id source : string)
    (m : InstallationManager) :
  Forall (λ p, 0 ≤ percentage p ≤ 100
               ∧ (source = "aur" ∨ source = "native" →
                  (String.length (details p) ≤ 500)%nat))
    (progress (install_package w pkg_id source m))
  ∧ Forall (λ p, 0 ≤ percentage p ≤ 100)
      (progress (uninstall_package w pkg_id source m)).
Proof.
  split.
  - rewrite install_package_progress.
    destruct (install_reports w pkg_id source false) as (more & -> & Hm).
    apply Forall_app. split.
    + case_bool_decide; [|constructor]. repeat constructor; simpl; lia.
    + eapply Forall_impl; [done|]. by intros p (_ & ? & ?).
  - unfold uninstall_package. destruct (uninstall_cmd _ _ _); [|constructor].
    destruct (popen w _) as [tr [rc|msg]|msg]; [destruct (decide (rc = 0))|..];
      simpl; repeat constructor; simpl; lia.
Qed.

(** X7: for a known source the first report of an install is
    [PREPARING], and no later report is. *)
Theorem preparing_reported_first_and_once (w : world) (pkg_id source : string)
    (m : InstallationManager) :
  source ∈ ["flatpak"; "snap"; "aur"; "native"] →
  ∃ more, progress (install_package w pkg_id source m) = preparing pkg_id :: more
          ∧ (PREPARING ∉ status <$> more).
Proof.
  intros Hs. rewrite install_package_progress.
  destruct (install_reports w pkg_id source false) as (more & Hr & Hm).
  rewrite bool_decide_eq_true_2 in Hr by done. exists more. split; [done|].
  intros [p [Hp Hin]]%list_elem_of_fmap.
  rewrite Forall_forall in Hm. by destruct (Hm p Hin) as [? _].
Qed.

Lemma preparing_reported_first_and_once_witness :
  ∃ more, progress (install_package scenarios.cancel_late "vlc" "snap" init)
          = preparing "vlc" :: more
          ∧ (PREPARING ∉ status <$> more).
Proof.
  apply (preparing_reported_first_and_once scenarios.cancel_late "vlc" "snap" init).
  right. by left.
Defined.

Lemma lines_of_lines ls : lines_of (Line <$> ls) = ls.
Proof. induction ls as [|l ls IH]; [done|]. simpl. by f_equal. Qed.

(** X8: [uninstall_package] never reads the cancellation flag: calls of
    [cancel] or [install_package] made while it runs, and the state of the
    flag before, change neither its result nor its reports, and the process
    is never sent [terminate()]. *)
Theorem uninstall_cannot_be_cancelled (w w' : world) (pkg_id source : string)
    (m m' : InstallationManager) :
  run w' = run w →
  (∀ cmd, popen w' cmd = without_calls (popen w cmd)) →
  complete (uninstall_package w pkg_id source m)
  = complete (uninstall_package w' pkg_id source m')
  ∧ progress (uninstall_package w pkg_id source m)
    = progress (uninstall_package w' pkg_id source m')
  ∧ killed (uninstall_package w pkg_id source m) = false.
Proof.
  intros Hrun Hpopen. unfold uninstall_package.
  assert (uninstall_cmd w' pkg_id source = uninstall_cmd w pkg_id source) as ->.
  { unfold uninstall_cmd. by rewrite Hrun. }
  destruct (uninstall_cmd w pkg_id source) as [cmd|msg]; [|done].
  rewrite Hpopen. destruct (popen w cmd) as [tr [rc|msg]|msg]; simpl; [|done..].
  rewrite lines_of_lines. by destruct (decide (rc = 0)).
Qed.

Lemma uninstall_cannot_be_cancelled_witness :
  let quiet_world :=
    {| run := scenarios.which_finds [];
       popen := λ _, Spawned [Line "Installing org.mozilla.firefox"] (Exit 0) |} in
  complete (uninstall_package scenarios.cancel_late "org.mozilla.firefox" "flatpak"
              (cancel init))
  = complete (uninstall_package quiet_world "org.mozilla.firefox" "flatpak" init).
Proof.
  intros quiet_world.
  exact (proj1 (uninstall_cannot_be_cancelled scenarios.cancel_late quiet_world
                  "org.mozilla.firefox" "flatpak" (cancel init) init eq_refl
                  (λ _, eq_refl))).
Defined.

Lemma first_not_raising_none run candidates :
  (∀ tool, ∃ msg, run ["which"; tool] = Raised msg) →
  first_not_raising run candidates = None.
Proof.
  intros Hrun. induction candidates as [|h rest IH]; [done|]. simpl.
  by destruct (Hrun h) as [msg ->].
Qed.

(** X9: on a host where [which] itself cannot be run, an AUR or native
    install fails with the message of the missing tool and [FAILED] as last
    status, and an AUR or native uninstall fails with no report at all. *)
Theorem nothing_runs_without_which (w : world) (pkg_id : string)
    (m : InstallationManager) :
  (∀ tool, ∃ msg, run w ["which"; tool] = Raised msg) →
  complete (install_package w pkg_id "aur" m) = (false, "No AUR helper found")
  ∧ complete (install_package w pkg_id "native" m) = (false, "No package manager found")
  ∧ final_status (install_package w pkg_id "aur" m) = Some FAILED
  ∧ final_status (install_package w pkg_id "native" m) = Some FAILED
  ∧ ∀ source, source = "aur" ∨ source = "native" →
      complete (uninstall_package w pkg_id source m) = (false, "No package manager found")
      ∧ progress (uninstall_package w pkg_id source m) = [].
Proof.
  intros Hrun.
  pose proof (first_not_raising_none (run w) aur_helpers Hrun) as Ha.
  pose proof (first_not_raising_none (run w) native_managers Hrun) as Hn.
  unfold install_package, final_status, _install, _install_aur, _install_native,
    uninstall_package, uninstall_cmd.
  rewrite Ha, Hn. split_and!; [done..|].
  by intros source [-> | ->].
Qed.

Lemma nothing_runs_without_which_witness :
  let w := {| run := λ _, Raised "[Errno 2] No such file or directory: 'which'";
              popen := λ _, Spawned [] (Exit 0) |} in
  complete (install_package w "yay-bin" "aur" init) = (false, "No AUR helper found").
Proof.
  intros w.
  refine (proj1 (nothing_runs_without_which w "yay-bin" init _)).
  intros tool. by eexists.
Defined.

End installation_more.

(** ** The fetcher: where the records come from *)

Section key_facts.
Import pystr app_fetcher.

Lemma has_char_cons c a s :
  has_char c (String a s) = bool_decide (c = a) || has_char c s.
Proof.
  unfold has_char. rewrite contains_cons. f_equal. simpl.
  destruct (ascii_dec c a) as [->|Hne].
  - rewrite bool_decide_eq_true_2 by done. by destruct s.
  - by rewrite bool_decide_eq_false_2.
Qed.

Lemma has_char_app c a b : has_char c (a +:+ String c b) = true.
Proof.
  induction a as [|x a IH].
  - change ("" +:+ String c b) with (String c b). rewrite has_char_cons.
    by rewrite bool_decide_eq_true_2.
  - rewrite app_cons, has_char_cons, IH. apply orb_true_r.
Qed.

(** The key of [seen_ids] tells the package id and the source apart when
    the source has no colon, as the five sources have none. *)
Lemma cache_key_inj pkg_id source pkg_id' source' :
  has_char ":" source = false → has_char ":" source' = false →
  cache_key pkg_id source = cache_key pkg_id' source' →
  pkg_id = pkg_id' ∧ source = source'.
Proof.
  unfold cache_key. change (":" +:+ source) with (String ":" source).
  change (":" +:+ source') with (String ":" source').
  intros Hs Hs'. revert pkg_id'.
  induction pkg_id as [|c p IH]; intros [|c' p'].
  - by intros [= ->].
  - change ("" +:+ String ":" source) with (String ":" source).
    rewrite app_cons. intros [= <- ->]. by rewrite has_char_app in Hs.
  - change ("" +:+ String ":" source') with (String ":" source').
    rewrite app_cons. intros [= -> <-]. by rewrite has_char_app in Hs'.
  - rewrite !app_cons. intros [= -> H]. by destruct (IH _ H) as [-> ->].
Qed.

End key_facts.

Section fetcher_more.
Import models popular_apps app_fetcher.
Variable POPULAR_APPS : list (string * metadata).
Variable PACKAGE_IDS : gmap string (gmap string (option string)).
Variable get_icon_name : string → string → string → option string.
Variable f : UnifiedAppFetcher.

Lemma foldl_add_source_offered app_key md srcs st :
  app_key ∈ get_popular_app_keys POPULAR_APPS →
  get_app_metadata POPULAR_APPS app_key = Some md →
  srcs ⊆ get_available_sources f →
  Forall (offered POPULAR_APPS PACKAGE_IDS get_icon_name f) st.1 →
  Forall (offered POPULAR_APPS PACKAGE_IDS get_icon_name f) (foldl (add_source PACKAGE_IDS get_icon_name f app_key md) st srcs).1.
Proof.
  intros Hkey Hmd. revert st. induction srcs as [|src srcs IH]; intros st Hsub Hst; [done|].
  simpl. apply IH; [intros x Hx; apply Hsub; by right|].
  unfold add_source.
  destruct (get_package_id PACKAGE_IDS app_key src) as [pkg_id|] eqn:Hid; [|done].
  case_decide; [done|]. simpl. apply Forall_app. split; [done|].
  constructor; [|done]. exists app_key, md. simpl. split_and!; try done.
  apply Hsub. by left.
Qed.

Lemma foldl_add_key_offered keys st :
  keys ⊆ get_popular_app_keys POPULAR_APPS →
  Forall (offered POPULAR_APPS PACKAGE_IDS get_icon_name f) st.1 →
  Forall (offered POPULAR_APPS PACKAGE_IDS get_icon_name f) (foldl (add_key POPULAR_APPS PACKAGE_IDS get_icon_name f) st keys).1.
Proof.
  revert st. induction keys as [|k keys IH]; intros st Hsub Hst; [done|].
  simpl. apply IH; [intros x Hx; apply Hsub; by right|]. unfold add_key.
  destruct (get_app_metadata POPULAR_APPS k) as [md|] eqn:Hmd; [|done].
  apply foldl_add_source_offered; [apply Hsub; by left|done..].
Qed.

(** X10: every record [get_all_apps] returns has an available source, the
    package id the table gives some key for that source, and [installed]
    as the installed-package cache says; afterwards [get_apps_by_source] is
    empty for a source that is not available, and [get_installed_apps]
    holds the records whose package is in the installed-package cache. *)
Theorem fetched_records_come_from_available_sources (app : AppInfo) (src : string) :
  let r := get_all_apps POPULAR_APPS PACKAGE_IDS get_icon_name f in
  (app ∈ r.1 →
   source app ∈ get_available_sources f
   ∧ installed app = _is_installed f (id app) (source app)
   ∧ ∃ app_key, app_key ∈ get_popular_app_keys POPULAR_APPS
                ∧ get_package_id PACKAGE_IDS app_key (source app) = Some (id app))
  ∧ (src ∉ get_available_sources f → get_apps_by_source r.2 src = [])
  ∧ (app ∈ get_installed_apps r.2 ↔
       app ∈ r.1 ∧ _is_installed f (id app) (source app) = true).
Proof.
  intros r.
  assert (Hall : Forall (offered POPULAR_APPS PACKAGE_IDS get_icon_name f) r.1).
  { subst r. unfold get_all_apps. simpl. by apply foldl_add_key_offered. }
  rewrite Forall_forall in Hall. split_and!.
  - intros Hin. destruct (Hall app Hin) as (app_key & md & ? & ? & ? & ? & Happ).
    split_and!; [done| |by exists app_key]. by rewrite Happ at 1.
  - intros Hsrc. unfold get_apps_by_source. simpl.
    apply filter_none. apply Forall_forall. intros a Ha Heq.
    destruct (Hall a Ha) as (? & ? & ? & ? & ? & ? & ?). congruence.
  - unfold get_installed_apps. simpl. rewrite list_elem_of_filter.
    change (foldl (add_key POPULAR_APPS PACKAGE_IDS get_icon_name f) ([], ∅)
              (get_popular_app_keys POPULAR_APPS)).1 with r.1.
    split.
    + intros [H1 H2]. split; [done|].
      destruct (Hall app H2) as (? & ? & ? & ? & ? & ? & Happ).
      rewrite Happ in H1. exact H1.
    + intros [H1 H2]. split; [|done].
      destruct (Hall app H1) as (? & ? & ? & ? & ? & ? & Happ).
      rewrite Happ at 1. exact H2.
Qed.

Lemma add_source_seen app_key md st src :
  seen_listed st →
  seen_listed (add_source PACKAGE_IDS get_icon_name f app_key md st src)
  ∧ st.2 ⊆ (add_source PACKAGE_IDS get_icon_name f app_key md st src).2
  ∧ ∀ pkg_id, get_package_id PACKAGE_IDS app_key src = Some pkg_id →
              cache_key pkg_id src ∈ (add_source PACKAGE_IDS get_icon_name f app_key md st src).2.
Proof.
  intros Hst. unfold add_source.
  destruct (get_package_id PACKAGE_IDS app_key src) as [pkg_id|]; [|done].
  case_decide as Hseen.
  - split_and!; [done..|]. by intros ? [= <-].
  - simpl. split_and!.
    + intros k Hk. simpl in Hk.
      apply elem_of_union in Hk as [Hk%elem_of_singleton|Hk].
      * exists (make_app get_icon_name f md pkg_id src). split; [|done].
        apply elem_of_app. right. by left.
      * destruct (Hst k Hk) as (app & ? & ?). exists app. split; [|done].
        apply elem_of_app. by left.
    + apply union_subseteq_r.
    + intros ? [= <-]. apply elem_of_union_l. by apply elem_of_singleton.
Qed.

Lemma foldl_add_source_seen app_key md srcs st :
  seen_listed st →
  seen_listed (foldl (add_source PACKAGE_IDS get_icon_name f app_key md) st srcs)
  ∧ st.2 ⊆ (foldl (add_source PACKAGE_IDS get_icon_name f app_key md) st srcs).2
  ∧ ∀ src pkg_id, src ∈ srcs →
      get_package_id PACKAGE_IDS app_key src = Some pkg_id →
      cache_key pkg_id src ∈ (foldl (add_source PACKAGE_IDS get_icon_name f app_key md) st srcs).2.
Proof.
  revert st. induction srcs as [|src srcs IH]; intros st Hst; simpl.
  - split_and!; [done..|]. by intros ?? ?%elem_of_nil.
  - destruct (add_source_seen app_key md st src Hst) as (H1 & H2 & H3).
    destruct (IH _ H1) as (I1 & I2 & I3). split_and!; [done|by etrans|].
    intros src' pkg_id [->|Hin]%elem_of_cons Hid.
    + apply I2. by apply H3.
    + by apply (I3 src').
Qed.

Lemma foldl_add_key_seen keys st :
  seen_listed st →
  seen_listed (foldl (add_key POPULAR_APPS PACKAGE_IDS get_icon_name f) st keys)
  ∧ st.2 ⊆ (foldl (add_key POPULAR_APPS PACKAGE_IDS get_icon_name f) st keys).2
  ∧ ∀ app_key md src pkg_id,
      app_key ∈ keys → get_app_metadata POPULAR_APPS app_key = Some md →
      src ∈ get_available_sources f →
      get_package_id PACKAGE_IDS app_key src = Some pkg_id →
      cache_key pkg_id src ∈ (foldl (add_key POPULAR_APPS PACKAGE_IDS get_icon_name f) st keys).2.
Proof.
  revert st. induction keys as [|k keys IH]; intros st Hst; simpl.
  - split_and!; [done..|]. by intros ???? ?%elem_of_nil.
  - assert (seen_listed ((add_key POPULAR_APPS PACKAGE_IDS get_icon_name f) st k) ∧ st.2 ⊆ ((add_key POPULAR_APPS PACKAGE_IDS get_icon_name f) st k).2
            ∧ ∀ md src pkg_id, get_app_metadata POPULAR_APPS k = Some md →
                src ∈ get_available_sources f →
                get_package_id PACKAGE_IDS k src = Some pkg_id →
                cache_key pkg_id src ∈ ((add_key POPULAR_APPS PACKAGE_IDS get_icon_name f) st k).2) as (H1 & H2 & H3).
    { unfold add_key. destruct (get_app_metadata POPULAR_APPS k) as [md|]; [|done].
      destruct (foldl_add_source_seen k md (get_available_sources f) st Hst)
        as (? & ? & H). split_and!; [done..|]. intros ??? [= <-]. apply H. }
    destruct (IH _ H1) as (I1 & I2 & I3). split_and!; [done|by etrans|].
    intros app_key md src pkg_id [->|Hin]%elem_of_cons Hmd Hsrc Hid.
    + apply I2. by eapply H3.
    + by eapply I3.
Qed.

(** X11: nothing the table offers is left out: when no available source
    has a colon in its name (the five sources have none), for every key of
    the table and every available source for which the table gives a
    package id, the list of [get_all_apps] has a record with that id and
    source. *)
Theorem every_offered_package_is_listed (app_key : string) (md : metadata)
    (src pkg_id : string) :
  (∀ s, s ∈ get_available_sources f → pystr.has_char ":" s = false) →
  app_key ∈ get_popular_app_keys POPULAR_APPS →
  get_app_metadata POPULAR_APPS app_key = Some md →
  src ∈ get_available_sources f →
  get_package_id PACKAGE_IDS app_key src = Some pkg_id →
  ∃ app, app ∈ (get_all_apps POPULAR_APPS PACKAGE_IDS get_icon_name f).1
         ∧ id app = pkg_id ∧ source app = src.
Proof.
  intros Hcolon Hkey Hmd Hsrc Hid.
  assert (Hall : Forall (offered POPULAR_APPS PACKAGE_IDS get_icon_name f)
                   (get_all_apps POPULAR_APPS PACKAGE_IDS get_icon_name f).1).
  { unfold get_all_apps. simpl. by apply foldl_add_key_offered. }
  rewrite Forall_forall in Hall. revert Hall. unfold get_all_apps. simpl. intros Hall.
  destruct (foldl_add_key_seen (get_popular_app_keys POPULAR_APPS) ([], ∅))
    as (H1 & _ & H3).
  { by intros k ?%elem_of_empty. }
  destruct (H1 (cache_key pkg_id src)) as (app & Happ & Hk); [by eapply H3|].
  exists app. split; [done|].
  destruct (Hall app Happ) as (_ & _ & _ & _ & Hav & _ & _).
  apply (cache_key_inj (id app) (source app) pkg_id src); [by apply Hcolon..|done].
Qed.

End fetcher_more.

Section fetcher_witness.
Import models popular_apps app_fetcher.

Lemma every_offered_package_is_listed_witness :
  let md := {| m_name := "Firefox"; m_summary := "Web browser";
               m_developer := None; m_categories := None;
               m_downloads := None; m_rating := None |} in
  let ids : gmap string (gmap string (option string)) :=
    {[ "firefox" := {[ "flatpak" := Some "org.mozilla.firefox" ]} ]} in
  let f := {| _available_sources := [("flatpak", true); ("snap", false)];
              _apps_cache := []; _installed_cache := ∅ |} in
  ∃ app, app ∈ (get_all_apps [("firefox", md)] ids (λ _ _ _, None) f).1
         ∧ id app = "org.mozilla.firefox" ∧ source app = "flatpak".
Proof.
  intros md ids f.
  apply (every_offered_package_is_listed [("firefox", md)] ids (λ _ _ _, None) f
           "firefox" md "flatpak" "org.mozilla.firefox").
  - intros s [->|H%elem_of_nil]%elem_of_cons; [reflexivity|done].
  - by left.
  - reflexivity.
  - by left.
  - vm_compute. reflexivity.
Defined.

End fetcher_witness.

(** ** The catalog: search, lookup, detection and sources *)

Section catalog_more.
Import pystr models catalog.

(** X12: [search_apps] keeps the order of the catalog and returns nothing
    that is not in it; a list of sources keeps, of the matches, those from
    these sources; an empty list of sources filters nothing, and the empty
    query matches every record. *)
Theorem search_apps_filters_in_order (pm : PackageManager) (query : string)
    (srcs : list string) (src : string) (app : AppInfo) :
  search_apps query None pm `sublist_of` (get_all_apps pm).1
  ∧ search_apps query (Some (src :: srcs)) pm `sublist_of` search_apps query None pm
  ∧ (app ∈ search_apps query (Some (src :: srcs)) pm ↔
       app ∈ search_apps query None pm ∧ source app ∈ src :: srcs)
  ∧ search_apps query (Some []) pm = search_apps query None pm
  ∧ search_apps "" None pm = (get_all_apps pm).1.
Proof.
  split_and!.
  - apply sublist_filter.
  - unfold search_apps. induction (get_all_apps pm).1 as [|a l IH]; [done|].
    rewrite !filter_cons. simpl.
    destruct (bool_decide (source a ∈ src :: srcs)); simpl;
      repeat case_decide; try done; try by constructor.
  - unfold search_apps. rewrite !list_elem_of_filter. simpl.
    rewrite andb_true_iff, bool_decide_eq_true. tauto.
  - done.
  - unfold search_apps. simpl. induction (get_all_apps pm).1 as [|a l IH]; [done|].
    rewrite filter_cons, decide_True; [by f_equal|].
    unfold matches. by destruct (lower (name a)).
Qed.

(** X13: [get_app] returns the first record of the catalog with the id
    asked for and, when a source is given, that source; it returns nothing
    exactly when the catalog has no such record. *)
Theorem get_app_first_match (pm : PackageManager) (app_id : string)
    (src : option string) :
  match get_app app_id src pm with
  | Some app =>
      id app = app_id ∧ (∀ s, src = Some s → source app = s)
      ∧ ∃ i, (get_all_apps pm).1 !! i = Some app
             ∧ ∀ j other, (j < i)%nat → (get_all_apps pm).1 !! j = Some other →
                 id other = app_id → ∃ s, src = Some s ∧ source other ≠ s
  | None =>
      ∀ other, other ∈ (get_all_apps pm).1 → id other = app_id →
               ∃ s, src = Some s ∧ source other ≠ s
  end.
Proof.
  unfold get_app.
  destruct (list_find _ _) as [[i app]|] eqn:Hf; simpl.
  - apply list_find_Some in Hf as (Hi & Hp & Hbefore).
    apply andb_true_iff in Hp as [Hid%bool_decide_eq_true Hs].
    split_and!; [done| |].
    + intros s ->. by apply bool_decide_eq_true in Hs.
    + exists i. split; [done|]. intros j other Hj Hl Hido.
      specialize (Hbefore j other Hl Hj).
      rewrite andb_true_iff, bool_decide_eq_true in Hbefore.
      destruct src as [s|]; [|by destruct Hbefore].
      exists s. split; [done|]. intros Hso. apply Hbefore.
      split; [done|]. by apply bool_decide_eq_true.
  - apply list_find_None in Hf. rewrite Forall_forall in Hf.
    intros other Hin Hido. specialize (Hf other Hin).
    rewrite andb_true_iff, bool_decide_eq_true in Hf.
    destruct src as [s|]; [|by destruct Hf].
    exists s. split; [done|]. intros Hso. apply Hf.
    split; [done|]. by apply bool_decide_eq_true.
Qed.

Lemma classify_name_consistent name :
  let '(ty, base, pm, aur) := classify_name name in
  (aur = true ↔ base = "arch") ∧ (base = "arch" ↔ pm = "pacman")
  ∧ (ty = UNKNOWN ↔ pm = "").
Proof.
  unfold classify_name.
  repeat (match goal with |- context [if ?c then _ else _] => destruct c end);
    split_and!; split; done.
Qed.

(** X14: whatever the file and the host, the detected profile is
    coherent: it supports the AUR exactly when its base is arch, which is
    exactly when its package manager is pacman; the package manager is
    never empty; and a profile of unknown type is the auto-detected or the
    inert one. *)
Theorem detected_profile_is_consistent (os_release : option string) (run : host) :
  let d := _detect_distribution os_release run in
  (supports_aur d = true ↔ base d = "arch")
  ∧ (base d = "arch" ↔ package_manager d = "pacman")
  ∧ package_manager d ≠ ""
  ∧ (distro_type d = UNKNOWN → d_name d = "Auto-detected" ∨ d_name d = "Unknown").
Proof.
  intros d. subst d.
  assert (Hfb : ∀ d, default unknown_profile (_detect_via_package_manager run) = d →
    (supports_aur d = true ↔ base d = "arch")
    ∧ (base d = "arch" ↔ package_manager d = "pacman")
    ∧ package_manager d ≠ ""
    ∧ (d_name d = "Auto-detected" ∨ d_name d = "Unknown")).
  { intros d <-. unfold _detect_via_package_manager, package_managers, detect_in.
    repeat (match goal with |- context [if ?c then _ else _] => destruct c end);
      simpl; split_and!; try split; try done; auto. }
  unfold _detect_distribution. destruct os_release as [content|]; simpl.
  - case_decide as Hty.
    + destruct (Hfb _ eq_refl) as (? & ? & ? & ?). by split_and!.
    + simpl. revert Hty. unfold _parse_os_release.
      pose proof (classify_name_consistent
                    (lower (default "Unknown"
                       (foldl parse_line ∅ (split newline content) !! "NAME")))) as Hc.
      destruct (classify_name _) as [[[ty b] pm] aur]. simpl.
      destruct Hc as (? & ? & Hu). intros Hty. split_and!; [done..| |done].
      intros Hpm. by apply Hty, Hu.
  - destruct (Hfb _ eq_refl) as (? & ? & ? & ?). by split_and!.
Qed.

Lemma split_not_nil sep s : split sep s ≠ [].
Proof.
  destruct s as [|c s]; [done|]. simpl. case_decide; [done|].
  by destruct (split sep s).
Qed.

Lemma split_app sep a b :
  split sep (a +:+ String sep b) = split sep a ++ split sep b.
Proof.
  induction a as [|c a IH].
  - simpl. by rewrite decide_True.
  - rewrite app_cons. simpl. rewrite IH. case_decide; [done|].
    pose proof (split_not_nil sep a). by destruct (split sep a).
Qed.

Lemma split_no_sep sep s : has_char sep s = false → split sep s = [s].
Proof.
  induction s as [|c s IH]; [done|]. rewrite has_char_cons.
  intros [Hc Hs]%orb_false_iff. apply bool_decide_eq_false in Hc.
  simpl. rewrite decide_False by done. by rewrite IH.
Qed.

Lemma partition_no_sep sep s : has_char sep s = false → partition sep s = None.
Proof.
  induction s as [|c s IH]; [done|]. rewrite has_char_cons.
  intros [Hc Hs]%orb_false_iff. apply bool_decide_eq_false in Hc.
  simpl. rewrite decide_False by done. by rewrite IH.
Qed.

Lemma parse_line_no_equals data line :
  has_char "=" line = false → parse_line data line = data.
Proof. intros H. unfold parse_line. by rewrite (partition_no_sep _ _ H). Qed.

(** X15: a line of /etc/os-release with no equals sign (a comment, a blank
    line) is ignored, wherever it stands: between two lines, as the first
    line, as the last line or alone, the profile is the one of the file
    without it. *)
Theorem os_release_skips_lines_without_equals (before junk after : string) :
  has_char "=" junk = false → has_char newline junk = false →
  _parse_os_release (before +:+ String newline (junk +:+ String newline after))
  = _parse_os_release (before +:+ String newline after)
  ∧ _parse_os_release (junk +:+ String newline after) = _parse_os_release after
  ∧ _parse_os_release (before +:+ String newline junk) = _parse_os_release before
  ∧ _parse_os_release junk = _parse_os_release "".
Proof.
  intros Heq Hnl.
  assert (Hdata : ∀ c c', foldl parse_line ∅ (split newline c)
                          = foldl parse_line ∅ (split newline c') →
                          _parse_os_release c = _parse_os_release c').
  { intros c c' H. unfold _parse_os_release. by rewrite H. }
  split_and!; apply Hdata;
    rewrite ?split_app, ?(split_no_sep _ _ Hnl), ?foldl_app; simpl;
    by rewrite ?(parse_line_no_equals _ _ Heq).
Qed.

Lemma os_release_skips_lines_without_equals_witness :
  _parse_os_release ("NAME=Manjaro Linux" +:+ String newline
                       ("# comment" +:+ String newline "VERSION_ID=23"))
  = _parse_os_release ("NAME=Manjaro Linux" +:+ String newline "VERSION_ID=23").
Proof.
  apply (proj1 (os_release_skips_lines_without_equals "NAME=Manjaro Linux"
                  "# comment" "VERSION_ID=23" eq_refl eq_refl)).
Defined.

Lemma lookup_manager_None pm src :
  lookup_manager pm src = None ↔ src ∉ get_available_sources pm.
Proof.
  unfold lookup_manager, get_available_sources. rewrite fmap_None, list_find_None.
  rewrite Forall_forall. split.
  - intros H [sm [-> Hin]]%list_elem_of_fmap. by apply (H sm).
  - intros H sm Hin Heq. apply H. apply list_elem_of_fmap. by exists sm.
Qed.

(** X16: an operation on a record whose source has no manager is refused: the
    callback receives the message, and neither the record nor the catalog
    changes. *)
Theorem unavailable_source_is_refused (app : AppInfo) (pm : PackageManager)
    (op : AppInfo → PackageManager → op_result) :
  source app ∉ get_available_sources pm →
  op ∈ [install_app; uninstall_app; update_app] →
  callback (op app pm) = (false, "Source " +:+ source app +:+ " not available")
  ∧ app_after (op app pm) = app
  ∧ pm_after (op app pm) = pm.
Proof.
  intros Hs%lookup_manager_None Hop.
  assert (∀ method on_success,
            operate method on_success app pm
            = {| app_after := app;
                 callback := (false, "Source " +:+ source app +:+ " not available");
                 pm_after := pm |}) as Hrefused.
  { intros method on_success. unfold operate. by rewrite Hs. }
  repeat (apply elem_of_cons in Hop as [->|Hop]);
    [unfold install_app|unfold uninstall_app|unfold update_app|by apply elem_of_nil in Hop];
    by rewrite Hrefused.
Qed.

Lemma unavailable_source_is_refused_witness :
  callback (install_app (scenarios.app "htop" "Htop" "snap") scenarios.two_backends)
  = (false, "Source snap not available").
Proof.
  refine (proj1 (unavailable_source_is_refused (scenarios.app "htop" "Htop" "snap")
                   scenarios.two_backends install_app _ _)).
  - intros [H|[H|H%elem_of_nil]%elem_of_cons]%elem_of_cons; [discriminate..|done].
  - by left.
Defined.

Lemma get_all_apps_rebuilt pm apps :
  (get_all_apps (set_cache apps false pm)).1 = mjoin (contribution <$> _managers pm).
Proof. by rewrite get_all_apps_concat. Qed.

(** X17: a successful install or uninstall invalidates the cache: the next
    [get_all_apps] asks the managers again, whatever the cache held. A
    failed operation leaves the catalog as it was, so a valid cache is
    served again. *)
Theorem installed_change_invalidates_cache (app : AppInfo) (pm : PackageManager)
    (op : AppInfo → PackageManager → op_result) :
  op ∈ [install_app; uninstall_app] →
  if (callback (op app pm)).1
  then (get_all_apps (pm_after (op app pm))).1
       = mjoin (contribution <$> _managers pm)
  else pm_after (op app pm) = pm.
Proof.
  intros Hop.
  assert (∀ method set,
            let r := operate method
                       (λ app pm, (set app, set_cache (_cache pm) false pm)) app pm in
            if (callback r).1
            then (get_all_apps (pm_after r)).1 = mjoin (contribution <$> _managers pm)
            else pm_after r = pm) as H.
  { intros method set. cbv zeta. unfold operate.
    destruct (lookup_manager pm (source app)) as [mgr|]; [|done].
    destruct (method mgr (id app)) as [[[] text]|msg]; [|done..].
    cbn [callback pm_after fst]. apply (get_all_apps_rebuilt pm (_cache pm)). }
  repeat (apply elem_of_cons in Hop as [->|Hop]);
    [apply (H install)|apply (H uninstall)|by apply elem_of_nil in Hop].
Qed.

Lemma installed_change_invalidates_cache_witness :
  let pm := set_cache [scenarios.vim] true scenarios.two_backends in
  (get_all_apps pm).1 = [scenarios.vim]
  ∧ (get_all_apps (pm_after (install_app scenarios.firefox pm))).1
    = [scenarios.firefox; scenarios.vim].
Proof.
  intros pm. split; [reflexivity|].
  exact (installed_change_invalidates_cache scenarios.firefox pm install_app
           ltac:(by left)).
Defined.

(** X18: with no valid cache, the catalog holds exactly the records of the
    managers whose [get_apps] returned: a manager that raises is passed
    over and the others are still listed. The list is then kept, and the
    next call returns it without asking again. *)
Theorem raising_backend_is_skipped (pm : PackageManager) (app : AppInfo) :
  _cache_valid pm = false →
  (app ∈ (get_all_apps pm).1 ↔
     ∃ s m apps, (s, m) ∈ _managers pm ∧ get_apps m = Returns apps ∧ app ∈ apps)
  ∧ _cache_valid (get_all_apps pm).2 = true
  ∧ get_all_apps (get_all_apps pm).2 = get_all_apps pm.
Proof.
  intros Hv. split; [|by unfold get_all_apps; rewrite Hv].
  rewrite get_all_apps_concat by done. rewrite list_elem_of_join. split.
  - intros (l & Hin & [[s m] [-> Hsm]]%list_elem_of_fmap).
    unfold contribution in Hin. simpl in Hin.
    destruct (get_apps m) as [apps|msg] eqn:E; [|by apply elem_of_nil in Hin].
    by exists s, m, apps.
  - intros (s & m & apps & Hsm & Hg & Hin). exists apps. split; [done|].
    apply list_elem_of_fmap. exists (s, m). split; [|done].
    unfold contribution. simpl. by rewrite Hg.
Qed.

Lemma raising_backend_is_skipped_witness :
  let broken := {| get_apps := Raises "flatpak: timed out";
                   install := λ _, Raises ""; uninstall := λ _, Raises "";
                   update := λ _, Raises "" |} in
  let pm := scenarios.with_managers
              [("flatpak", broken); ("native", scenarios.lists [scenarios.vim])] in
  scenarios.vim ∈ (get_all_apps pm).1.
Proof.
  intros broken pm.
  apply (proj1 (raising_backend_is_skipped pm scenarios.vim eq_refl)).
  exists "native", (scenarios.lists [scenarios.vim]), [scenarios.vim].
  split_and!; [by right; left|done|by left].
Defined.

Lemma init_managers_sources new distro run :
  (_init_managers new distro run).*1
  = (if _command_exists run "flatpak" then ["flatpak"] else [])
    ++ (if _command_exists run "snap" then ["snap"] else [])
    ++ (if match distro with Some d => supports_aur d | None => false end
           && (_command_exists run "paru" || _command_exists run "yay"
               || _command_exists run "pamac")
        then ["aur"] else [])
    ++ ["native"]
    ++ (if _command_exists run "distrobox" then ["distrobox"] else []).
Proof.
  unfold _init_managers. rewrite !fmap_app. repeat f_equal; by case_match.
Qed.

Ltac not_among H :=
  repeat (apply elem_of_cons in H as [H|H]; [discriminate H|]);
  by apply elem_of_nil in H.

(** X19: the sources of a new catalog come in the fixed order flatpak,
    snap, aur, native, distrobox, each at most once; native is always
    among them, with the manager built for the detected distribution; aur
    only on a distribution that supports it; the three others exactly when
    [_command_exists] finds the command. *)
Theorem native_source_always_offered (new : constructors)
    (os_release : option string) (run : host) :
  let pm := new_package_manager new os_release run in
  sublist (get_available_sources pm) ["flatpak"; "snap"; "aur"; "native"; "distrobox"]
  ∧ lookup_manager pm "native"
    = Some (NativeManager new (Some (_detect_distribution os_release run)))
  ∧ ("aur" ∈ get_available_sources pm →
     supports_aur (_detect_distribution os_release run) = true)
  ∧ (∀ s, s ∈ ["flatpak"; "snap"; "distrobox"] →
          s ∈ get_available_sources pm ↔ _command_exists run s = true).
Proof.
  cbv zeta. unfold get_available_sources, new_package_manager. cbn [_managers].
  rewrite init_managers_sources. split_and!.
  - change ["flatpak"; "snap"; "aur"; "native"; "distrobox"]
      with (["flatpak"] ++ ["snap"] ++ ["aur"] ++ ["native"] ++ ["distrobox"]).
    repeat apply sublist_app; try done; case_match; done || apply sublist_nil_l.
  - unfold lookup_manager, _init_managers. cbn [_managers].
    by repeat case_match.
  - destruct (supports_aur (_detect_distribution os_release run)); [done|].
    cbn [andb]. intros H. repeat case_match; not_among H.
  - intros s Hs.
    repeat (apply elem_of_cons in Hs as [->|Hs]); [| | |by apply elem_of_nil in Hs].
    all: split; [intros H; repeat case_match; done || not_among H|].
    all: intros ->; apply elem_of_app; repeat first [by left; left | by right; left | right; apply elem_of_app].
Qed.

End catalog_more.

(** ** managers/package_manager.py: what success means *)

Section package_manager_more.
Import models package_manager.

Lemma run_once_success run cmd text :
  run_once run cmd = (true, text) →
  ∃ stdout stderr, run cmd = Completed 0 stdout stderr ∧ text = stdout +:+ stderr.
Proof.
  unfold run_once, outcome_of. destruct (run cmd) as [rc out err|msg]; [|done].
  intros [= Hrc <-]. apply bool_decide_eq_true in Hrc as ->. by exists out, err.
Qed.

Lemma run_first_success run cmd none_msg tools text :
  run_first run cmd none_msg tools = (true, text) →
  ∃ tool stdout stderr,
    tool ∈ tools ∧ run (cmd tool) = Completed 0 stdout stderr
    ∧ text = stdout +:+ stderr.
Proof.
  induction tools as [|tool rest IH]; simpl; [done|].
  assert (run_first run cmd none_msg rest = (true, text) →
          ∃ tool0 stdout stderr,
            tool0 ∈ tool :: rest ∧ run (cmd tool0) = Completed 0 stdout stderr
            ∧ text = stdout +:+ stderr) as Hrest.
  { intros (t & out & err & Hin & Hr & ->)%IH. exists t, out, err.
    split; [by right|done]. }
  destruct (run ["which"; tool]) as [? ? ?|?]; [|done].
  destruct (run (cmd tool)) as [rc out err|msg] eqn:E; [|done].
  unfold outcome_of. intros [= Hrc <-]. apply bool_decide_eq_true in Hrc as ->.
  exists tool, out, err. split; [by left|done].
Qed.

(** X20: [_install_package] and [_uninstall_package] report success only when a
    command that names the package was run and exited with code zero, and
    the text is then the output of that command. *)
Theorem success_means_a_command_exited_zero (run : host) (pkg_id src text : string)
    (op : host → string → string → bool * string) :
  op ∈ [_install_package; _uninstall_package] →
  op run pkg_id src = (true, text) →
  src ∈ ["flatpak"; "snap"; "aur"; "native"]
  ∧ ∃ cmd stdout stderr,
      run cmd = Completed 0 stdout stderr ∧ pkg_id ∈ cmd ∧ text = stdout +:+ stderr.
Proof.
  intros Hop.
  repeat (apply elem_of_cons in Hop as [->|Hop]); [| |by apply elem_of_nil in Hop].
  - unfold _install_package. repeat case_decide; subst.
    + intros (out & err & Hr & ->)%run_once_success.
      split; [by left|]. eexists _, out, err. split_and!; [exact Hr| |done].
      by do 4 right; left.
    + intros (out & err & Hr & ->)%run_once_success.
      split; [by right; left|]. eexists _, out, err. split_and!; [exact Hr| |done].
      by do 3 right; left.
    + intros (tool & out & err & _ & Hr & ->)%run_first_success.
      split; [by do 2 right; left|]. eexists _, out, err. split_and!; [exact Hr| |done].
      unfold aur_install_cmd. case_decide; by do 3 right; left.
    + intros (tool & out & err & _ & Hr & ->)%run_first_success.
      split; [by do 3 right; left|]. eexists _, out, err. split_and!; [exact Hr| |done].
      unfold native_install_cmd. repeat case_decide; by repeat first [left | right].
    + done.
  - unfold _uninstall_package. repeat case_decide; subst.
    + intros (out & err & Hr & ->)%run_once_success.
      split; [by left|]. eexists _, out, err. split_and!; [exact Hr| |done].
      by do 3 right; left.
    + intros (out & err & Hr & ->)%run_once_success.
      split; [by right; left|]. eexists _, out, err. split_and!; [exact Hr| |done].
      by do 3 right; left.
    + intros (tool & out & err & _ & Hr & ->)%run_first_success.
      split.
      { match goal with H : _ ∨ _ |- _ => destruct H as [->| ->] end;
          [by do 2 right; left|by do 3 right; left]. }
      eexists _, out, err. split_and!; [exact Hr| |done].
      unfold native_remove_cmd. repeat case_decide; by repeat first [left | right].
    + done.
Qed.

Lemma success_means_a_command_exited_zero_witness :
  let run : host := λ _, Completed 0 "done" "" in
  ∃ cmd stdout stderr,
    run cmd = Completed 0 stdout stderr ∧ "vim" ∈ cmd ∧ "done" = stdout +:+ stderr.
Proof.
  intros run.
  refine (proj2 (success_means_a_command_exited_zero run "vim" "native" "done"
                   _install_package _ _)).
  - by left.
  - reflexivity.
Defined.

(** X21: a candidate whose [which] call or whose command cannot be started is
    passed over, and the loop goes on with the candidates after it. *)
Theorem tool_that_cannot_start_is_passed_over (run : host)
    (cmd : string → list string) (none_msg : string) (skipped rest : list string) :
  (∀ tool, tool ∈ skipped →
     (∃ msg, run ["which"; tool] = Raised msg) ∨ (∃ msg, run (cmd tool) = Raised msg)) →
  run_first run cmd none_msg (skipped ++ rest) = run_first run cmd none_msg rest
  ∧ run_first run cmd none_msg skipped = (false, none_msg).
Proof.
  induction skipped as [|tool skipped IH]; intros H; [done|].
  change ((tool :: skipped) ++ rest) with (tool :: skipped ++ rest).
  assert (run_first run cmd none_msg (tool :: skipped ++ rest)
          = run_first run cmd none_msg (skipped ++ rest)
          ∧ run_first run cmd none_msg (tool :: skipped)
            = run_first run cmd none_msg skipped) as [-> ->].
  { simpl. destruct (H tool) as [[msg ->]|[msg ->]]; [by left|done|].
    by destruct (run ["which"; tool]). }
  apply IH. intros t Ht. apply H. by right.
Qed.

Lemma tool_that_cannot_start_is_passed_over_witness :
  let run : host := λ cmd,
    match cmd with
    | ["which"; _] => Completed 1 "" ""
    | "yay" :: _ => Completed 0 "installed" ""
    | _ => Raised "[Errno 2] No such file or directory"
    end in
  _install_package run "yay-bin" "aur" = (true, "installed").
Proof.
  intros run.
  refine (eq_trans (proj1 (tool_that_cannot_start_is_passed_over run
                     (aur_install_cmd "yay-bin") "No AUR helper available"
                     ["paru"] ["yay"; "pamac"] _)) eq_refl).
  intros tool ->%list_elem_of_singleton. right. by eexists.
Defined.

End package_manager_more.

(** ** The native manager: installed records come first *)

Section native_more.
Import models backend_managers.

Lemma native_get_apps_elem installed available app :
  app ∈ native_get_apps installed available ↔
    app ∈ installed ∨ (app ∈ available ∧ id app ∉ id <$> installed).
Proof.
  unfold native_get_apps. cbv zeta.
  rewrite elem_of_app, list_elem_of_filter, elem_of_list_to_set. tauto.
Qed.

(** X22: [NativeManager.get_apps] lists the installed records first, as
    they are and in their order, and then, in their order, the available
    ones whose id is not installed; when neither list repeats an id, the
    result has every id once, and it has an id exactly when one of the two
    lists has it. *)
Theorem native_get_apps_unique_ids (installed available : list AppInfo) :
  NoDup (id <$> installed) → NoDup (id <$> available) →
  (∃ rest, native_get_apps installed available = installed ++ rest
           ∧ rest `sublist_of` available
           ∧ ∀ app, app ∈ rest ↔ app ∈ available ∧ id app ∉ id <$> installed)
  ∧ NoDup (id <$> native_get_apps installed available)
  ∧ (∀ i, i ∈ id <$> native_get_apps installed available ↔
          i ∈ id <$> installed ∨ i ∈ id <$> available)
  ∧ (∀ app, app ∈ installed → app ∈ native_get_apps installed available)
  ∧ (∀ app, app ∈ available → id app ∈ id <$> installed →
            app ∈ native_get_apps installed available → app ∈ installed).
Proof.
  intros Hi Ha. split_and!.
  - eexists. split; [reflexivity|]. split; [apply sublist_filter|].
    intros app. rewrite list_elem_of_filter, elem_of_list_to_set. tauto.
  - unfold native_get_apps. cbv zeta. rewrite fmap_app. apply NoDup_app. split_and!.
    + done.
    + intros i Hin [app [-> [Hnot _]%list_elem_of_filter]]%list_elem_of_fmap.
      apply Hnot. by apply elem_of_list_to_set.
    + eapply sublist_NoDup; [exact Ha|]. apply fmap_sublist, sublist_filter.

  - intros i. split.
    + intros [app [-> Hin%native_get_apps_elem]]%list_elem_of_fmap.
      destruct Hin as [Hin|[Hin _]]; [left|right]; by apply list_elem_of_fmap_2.
    + intros [Hin|[app [-> Hin]]%list_elem_of_fmap].
      * apply list_elem_of_fmap in Hin as [app [-> Hin]].
        apply list_elem_of_fmap_2, native_get_apps_elem. by left.
      * destruct (decide (id app ∈ id <$> installed)) as [Hinst|Hnot].
        -- apply list_elem_of_fmap in Hinst as [app' [-> Hin']].
           apply list_elem_of_fmap_2, native_get_apps_elem. by left.
        -- apply list_elem_of_fmap_2, native_get_apps_elem. by right.
  - intros app Hin. apply native_get_apps_elem. by left.
  - intros app _ Hid [Hin|[_ Hnot]]%native_get_apps_elem; done.
Qed.

Lemma native_get_apps_unique_ids_witness :
  let vim_installed := set_installed true scenarios.vim in
  NoDup (id <$> native_get_apps [vim_installed] [scenarios.vim; scenarios.firefox]).
Proof.
  intros vim_installed.
  refine (proj1 (proj2 (native_get_apps_unique_ids [vim_installed]
                          [scenarios.vim; scenarios.firefox] _ _))).
  - apply NoDup_singleton.
  - apply NoDup_cons. split; [|apply NoDup_singleton].
    by intros [=]%list_elem_of_singleton.
Defined.

End native_more.
